(** * FrameData: a type-indexed frame arena (include/FrameData.h)

    Shallow embedding of [FFrameData] and of the helpers in namespaces
    [Memory] and [Details], followed by the properties of the allocator,
    the type registry and the typed views. *)

From Stdlib Require Import ZArith Lia String Ascii.
From Stdlib.Strings Require Import Byte.
From stdpp Require Import base option list gmap strings.

Local Open Scope Z_scope.

(** ** Fixed-width unsigned integers

    [uint32_t], [uint64_t] and [size_t] are carried as [Z]; every place
    where the C++ code can wrap is written with [u32] or [u64]. *)

Definition u32 (z : Z) : Z := z mod 2 ^ 32.
Definition u64 (z : Z) : Z := z mod 2 ^ 64.
Definition u8_of_char (c : ascii) : Z := Z.of_nat (nat_of_ascii c).

Global Arguments u32 : simpl never.
Global Arguments u64 : simpl never.

(** ** namespace Details *)

Module Details.

(** [(T)(((uint64_t)Val + Alignment - 1) & ~(Alignment - 1))]; the
    result type [T] is given by its truncation [castT]. *)
Definition Align (castT : Z → Z) (Val Alignment : Z) : Z :=
  castT (Z.land (u64 (u64 (u64 Val + Alignment) - 1))
                (u64 (Z.lnot (u64 (Alignment - 1))))).

Definition Seed : Z := 0xCBF29CE484222325.
Definition Prime : Z := 0x100000001B3.

(** The [for] loop of [ComputeHash]: the guard [Index < TypeStr.size()]
    is tested first, [TypeStr.at(Index)] fails when out of range. *)
Fixpoint ComputeHash_loop (fuel : nat) (TypeStr : string)
    (Index : nat) (Hash : Z) : option Z :=
  if (Index <? String.length TypeStr)%nat then
    match fuel with
    | O => None
    | S fuel' =>
        match String.get Index TypeStr with
        | Some c =>
            let Hash1 := Z.lxor Hash (u8_of_char c) in
            let Hash2 := u64 (Hash1 * Prime) in
            ComputeHash_loop fuel' TypeStr (S Index) Hash2
        | None => None
        end
    end
  else Some Hash.

(** [TypeStr] is the [__FUNCSIG__] of the instance [ComputeHash<T>]. *)
Definition ComputeHash (TypeStr : string) : option Z :=
  ComputeHash_loop (String.length TypeStr) TypeStr 0 Seed.

End Details.

(** A C++ type as far as the container looks at it: the signature string
    the compiler produces for [ComputeHash<T>], [sizeof(T)], [alignof(T)]. *)
Record CType := mkCType {
  FUNCSIG : string;
  sizeof : Z;
  alignof : Z
}.

Global Instance CType_eq_dec : EqDecision CType.
Proof. solve_decision. Defined.

(** [TTypeIndex<T>::Value]; a constant expression, so [ComputeHash] has
    a value whenever the program compiles. *)
Definition TTypeIndex (T : CType) : Z :=
  default 0 (Details.ComputeHash (FUNCSIG T)).

(** FNV-1a as the specification words it: fold over the bytes in order. *)
Definition fnv1a_step (h b : Z) : Z := (Z.lxor h b * 0x100000001B3) mod 2 ^ 64.
Definition fnv1a (bytes : list Z) : Z :=
  fold_left fnv1a_step bytes 0xCBF29CE484222325.
Definition string_bytes (s : string) : list Z :=
  map u8_of_char (list_ascii_of_string s).

(** ** Memory

    Pointers are a block and a byte offset inside it. The C heap keeps,
    for every live block, the size it was requested with; its bytes are
    a function of block and offset. *)

Definition block := nat.

Inductive pointer : Type :=
  | nullptr
  | Ptr (b : block) (o : Z).

Global Instance pointer_eq_dec : EqDecision pointer.
Proof. solve_decision. Defined.

(** The object representation of a value: its bytes by offset. *)
Definition object := Z → byte.

Record Heap := mkHeap {
  next_block : block;
  live : gmap block Z;
  mem : block → Z → byte
}.

(** The container of the source. *)
Record FFrameData := mkFrameData {
  TypeMap : gmap Z (list pointer);
  Chunks : list pointer;
  ChunkSize : Z;
  Head : Z;
  ChunkHead : Z
}.

Definition ChunkAlignment : Z := 64.

Definition World : Type := Heap * FFrameData.

(** *** A state monad with undefined behaviour as failure *)

Definition M (A : Type) : Type := World → option (A * World).

Definition ret {A} (a : A) : M A := λ w, Some (a, w).
Definition bind {A B} (m : M A) (k : A → M B) : M B :=
  λ w, match m w with
       | Some (a, w') => k a w'
       | None => None
       end.
Definition undefined {A} : M A := λ _, None.
Definition this : M FFrameData := λ w, Some (snd w, w).
Definition assign (f : FFrameData → FFrameData) : M unit :=
  λ w, Some (tt, (fst w, f (snd w))).
Definition on_heap {A} (f : Heap → option (A * Heap)) : M A :=
  λ w, match f (fst w) with
       | Some (a, h') => Some (a, (h', snd w))
       | None => None
       end.

Declare Scope cpp_scope.
Delimit Scope cpp_scope with cpp.
Notation "x <- m ;; k" := (bind m (λ x, k))
  (at level 100, m at next level, right associativity) : cpp_scope.
Notation "m ;; k" := (bind m (λ _, k))
  (at level 100, right associativity) : cpp_scope.
Local Open Scope cpp_scope.

Definition set_TypeMap (v : gmap Z (list pointer)) (s : FFrameData) :=
  mkFrameData v (Chunks s) (ChunkSize s) (Head s) (ChunkHead s).
Definition set_Chunks (v : list pointer) (s : FFrameData) :=
  mkFrameData (TypeMap s) v (ChunkSize s) (Head s) (ChunkHead s).
Definition set_Head (v : Z) (s : FFrameData) :=
  mkFrameData (TypeMap s) (Chunks s) (ChunkSize s) v (ChunkHead s).
Definition set_ChunkHead (v : Z) (s : FFrameData) :=
  mkFrameData (TypeMap s) (Chunks s) (ChunkSize s) (Head s) v.

(** ** namespace Memory and the C library *)

Module Memory.

(** The heap with one more live block of [size] bytes. *)
Definition heap_extend (size : Z) (h : Heap) : Heap :=
  mkHeap (S (next_block h)) (<[next_block h := size]> (live h)) (mem h).

(** [aligned_alloc] / [_aligned_malloc]: a block never handed out
    before; its bytes are whatever the heap holds there. *)
Definition AlignedAlloc (InSize InAlign : Z) (h : Heap)
    : option (pointer * Heap) :=
  Some (Ptr (next_block h) 0, heap_extend InSize h).

End Memory.

(** [std::free]: a null pointer is ignored; anything else has to be the
    start of a live block. *)
Definition free (p : pointer) (h : Heap) : option (unit * Heap) :=
  match p with
  | nullptr => Some (tt, h)
  | Ptr b o =>
      if decide (o = 0) then
        match live h !! b with
        | Some _ => Some (tt, mkHeap (next_block h) (delete b (live h)) (mem h))
        | None => None
        end
      else None
  end.

(** Placement new of a value of [n] bytes: the bytes are written when
    they fit inside a live block. *)
Definition store (p : pointer) (n : Z) (v : object) (h : Heap)
    : option (unit * Heap) :=
  match p with
  | nullptr => None
  | Ptr b o =>
      match live h !! b with
      | Some sz =>
          if decide (0 ≤ o ∧ o + n ≤ sz) then
            Some (tt, mkHeap (next_block h) (live h)
                    (λ b' i, if decide (b' = b ∧ o ≤ i < o + n)
                             then v (i - o) else mem h b' i))
          else None
      | None => None
      end
  end.

(** Reading an object of [n] bytes through a pointer. *)
Definition load (p : pointer) (n : Z) (h : Heap) : option object :=
  match p with
  | nullptr => None
  | Ptr b o =>
      match live h !! b with
      | Some sz =>
          if decide (0 ≤ o ∧ o + n ≤ sz) then Some (λ i, mem h b (o + i))
          else None
      | None => None
      end
  end.

Global Arguments store : simpl never.
Global Arguments load : simpl never.

(** Byte-pointer arithmetic, [p + n] on a [uint8_t] pointer. *)
Definition ptr_add (p : pointer) (n : Z) : option pointer :=
  match p with
  | nullptr => if decide (n = 0) then Some nullptr else None
  | Ptr b o => Some (Ptr b (o + n))
  end.

(** [v[i]] on a [std::vector]: outside the vector it is undefined. *)
Definition vector_at {A} (v : list A) (i : Z) : M A :=
  if decide (0 ≤ i) then
    match v !! Z.to_nat i with
    | Some x => ret x
    | None => undefined
    end
  else undefined.

(** ** class FFrameData *)

(** [explicit FFrameData(uint32_t InChunkSize)]. *)
Definition Construct (InChunkSize : Z) : FFrameData :=
  mkFrameData ∅ [] InChunkSize 0 0.

(** [FFrameData(FFrameData&& InOther)]: the new object takes the five
    members; the source keeps its scalars, its vector is cleared and its
    map is left as moved-from (empty). Returns the new object and what
    remains of [InOther]. *)
Definition MoveConstruct (InOther : FFrameData) : FFrameData * FFrameData :=
  (mkFrameData (TypeMap InOther) (Chunks InOther) (ChunkSize InOther)
               (Head InOther) (ChunkHead InOther),
   mkFrameData ∅ [] (ChunkSize InOther) (Head InOther) (ChunkHead InOther)).

Definition PushChunk : M unit :=
  s <- this ;;
  p <- on_heap (Memory.AlignedAlloc (ChunkSize s) ChunkAlignment) ;;
  assign (set_Chunks (Chunks s ++ [p])).

Definition Allocate (InSize InAlign : Z) : M pointer :=
  s0 <- this ;;
  (if decide (length (Chunks s0) = 0%nat) then PushChunk else ret tt) ;;
  s1 <- this ;;
  let Offset := Details.Align u32 (Head s1) InAlign in
  Offset <-
    (if decide (u64 (Offset + InSize) > ChunkSize s1) then
       assign (set_Head 0) ;;
       assign (λ s, set_ChunkHead (u32 (ChunkHead s + 1)) s) ;;
       s2 <- this ;;
       (if decide (ChunkHead s2 >= Z.of_nat (length (Chunks s2)))
        then PushChunk else ret tt) ;;
       ret 0
     else ret Offset) ;;
  assign (set_Head (u32 (u64 (Offset + InSize)))) ;;
  s3 <- this ;;
  ChunkPtr <- vector_at (Chunks s3) (ChunkHead s3) ;;
  match ptr_add ChunkPtr Offset with
  | Some p => ret p
  | None => undefined
  end.

(** The two [static_assert]s of [Push]; destructors are not modelled, so
    [Supports<T>()] has nothing to check here. *)
Definition Push_compiles (T : CType) : Prop := alignof T ≤ ChunkAlignment.

Definition Push (T : CType) (InValue : object) : M unit :=
  Ptr <- Allocate (sizeof T) (alignof T) ;;
  on_heap (store Ptr (sizeof T) InValue) ;;
  let Index := TTypeIndex T in
  s <- this ;;
  match TypeMap s !! Index with
  | Some vec => assign (set_TypeMap (<[Index := vec ++ [Ptr]]> (TypeMap s)))
  | None => assign (set_TypeMap (<[Index := [Ptr]]> (TypeMap s)))
  end.

(** *** Iterators

    A [TIterator] holds a pointer into the buffer of one vector of the
    registry: the key of that vector and a position in it, or null. *)
Inductive TIterator : Type :=
  | NullIt
  | It (key : Z) (pos : nat).

Global Instance TIterator_eq_dec : EqDecision TIterator.
Proof. solve_decision. Defined.

Record TIteratorRange := mkRange {
  Begin : TIterator;
  End_ : TIterator
}.

(** [operator*] seen as the address it designates, [operator++]. *)
Definition TIterator_deref (s : FFrameData) (it : TIterator) : option pointer :=
  match it with
  | NullIt => None
  | It key pos =>
      match TypeMap s !! key with
      | Some vec => vec !! pos
      | None => None
      end
  end.

Definition TIterator_incr (it : TIterator) : option TIterator :=
  match it with
  | NullIt => None
  | It key pos => Some (It key (S pos))
  end.

(** [Data<T>() const]. The range returned for an absent key is
    value-initialised: both cursors are null. *)
Definition Data (T : CType) : M TIteratorRange :=
  s <- this ;;
  match TypeMap s !! TTypeIndex T with
  | Some vec => ret (mkRange (It (TTypeIndex T) 0) (It (TTypeIndex T) (length vec)))
  | None => ret (mkRange NullIt NullIt)
  end.

(** [for (auto it = r.begin(); it != r.end(); ++it)], collecting the
    addresses the iterator designates. *)
Fixpoint range_for (fuel : nat) (s : FFrameData) (it e : TIterator)
    : option (list pointer) :=
  if decide (it = e) then Some []
  else match fuel with
       | O => None
       | S fuel' =>
           match TIterator_deref s it, TIterator_incr it with
           | Some p, Some it' =>
               match range_for fuel' s it' e with
               | Some ps => Some (p :: ps)
               | None => None
               end
           | _, _ => None
           end
       end.

(** The two [for] loops of [Clear]; each tests its guard first and
    spends one unit of fuel per iteration. *)
Fixpoint free_from (fuel : nat) (i : nat) (v : list pointer) (h : Heap)
    : option (unit * Heap) :=
  if decide (i < length v)%nat then
    match fuel with
    | O => None
    | S fuel' =>
        match v !! i with
        | Some p =>
            match free p h with
            | Some (_, h') => free_from fuel' (S i) v h'
            | None => None
            end
        | None => None
        end
    end
  else Some (tt, h).

Fixpoint alloc_from (fuel : nat) (i InSlack : nat) (size : Z)
    (v : list pointer) (h : Heap) : option (list pointer * Heap) :=
  if decide (i < InSlack)%nat then
    match fuel with
    | O => None
    | S fuel' =>
        match Memory.AlignedAlloc size ChunkAlignment h with
        | Some (p, h') =>
            if decide (i < length v)%nat
            then alloc_from fuel' (S i) InSlack size (<[i := p]> v) h'
            else None
        | None => None
        end
    end
  else Some (v, h).

Definition Clear (InSlack : nat) : M unit :=
  assign (set_Head 0) ;;
  assign (set_ChunkHead 0) ;;
  assign (set_TypeMap ∅) ;;
  s <- this ;;
  if decide (InSlack < length (Chunks s))%nat then
    on_heap (free_from (length (Chunks s)) InSlack (Chunks s)) ;;
    assign (set_Chunks (resize InSlack nullptr (Chunks s)))
  else
    let BaseCount := length (Chunks s) in
    assign (set_Chunks (resize InSlack nullptr (Chunks s))) ;;
    s' <- this ;;
    v <- on_heap (alloc_from InSlack BaseCount InSlack (ChunkSize s') (Chunks s')) ;;
    assign (set_Chunks v).

(** [~FFrameData()]. *)
Definition Destroy : M unit := Clear 0.

(** ** Specification-level notions *)

(** Rounding an offset up to a multiple of [a], in unbounded integers. *)
Definition align_up (x a : Z) : Z := (x + a - 1) / a * a.

(** An alignment is a power of two; [alignof] only yields such values. *)
Definition is_alignment (a : Z) : Prop := ∃ k, 0 ≤ k ∧ a = 2 ^ k.

Definition CType_ok (T : CType) : Prop :=
  0 < sizeof T < 2 ^ 64 ∧ is_alignment (alignof T).

(** Allocation as the specification words it: block first when the pool
    is empty, offset aligned up, roll over to the next block (appended
    when beyond the pool) when the request does not fit, address is the
    active block plus the chosen offset, the offset advances by the size.
    All arithmetic is on unbounded integers. *)
Definition Allocate_spec (size align : Z) : M pointer :=
  s0 <- this ;;
  (if decide (Chunks s0 = []) then PushChunk else ret tt) ;;
  s1 <- this ;;
  let aligned_offset := align_up (Head s1) align in
  if decide (aligned_offset + size > ChunkSize s1) then
    let active := ChunkHead s1 + 1 in
    (if decide (active >= Z.of_nat (length (Chunks s1)))
     then PushChunk else ret tt) ;;
    assign (set_ChunkHead active) ;;
    assign (set_Head (0 + size)) ;;
    s2 <- this ;;
    base <- vector_at (Chunks s2) active ;;
    match ptr_add base 0 with Some p => ret p | None => undefined end
  else
    assign (set_Head (aligned_offset + size)) ;;
    base <- vector_at (Chunks s1) (ChunkHead s1) ;;
    match ptr_add base aligned_offset with Some p => ret p | None => undefined end.

(** The numeric address of a pointer, for an assignment [base] of
    addresses to blocks. *)
Definition address (base : block → Z) (p : pointer) : Z :=
  match p with
  | nullptr => 0
  | Ptr b o => base b + o
  end.

(** Two object representations agree on their first [n] bytes. *)
Definition bytes_eq (n : Z) (a b : object) : Prop :=
  ∀ i, 0 ≤ i < n → a i = b i.

(** [Query<T>]: take the view and walk it, with the given fuel. *)
Definition Query (T : CType) (fuel : nat) : M (list pointer) :=
  r <- Data T ;;
  s <- this ;;
  match range_for fuel s (Begin r) (End_ r) with
  | Some ps => ret ps
  | None => undefined
  end.

(** A frame: a list of pushes, each a type and a value. *)
Fixpoint PushAll (ops : list (CType * object)) : M unit :=
  match ops with
  | [] => ret tt
  | (T, v) :: ops' => Push T v ;; PushAll ops'
  end.

Definition pushed_as (T : CType) (ops : list (CType * object)) : list object :=
  omap (λ op, if decide (fst op = T) then Some (snd op) else None) ops.

(** *** The steps of [Allocate], named

    The pool and heap after a conditional [PushChunk], whether the
    request rolls over, the offset and block index it gets, and the pool,
    heap and container it leaves. *)
Definition grown (c : bool) (size : Z) (hc : Heap * list pointer)
    : Heap * list pointer :=
  if c then (Memory.heap_extend size (fst hc),
             snd hc ++ [Ptr (next_block (fst hc)) 0])
  else hc.

Definition alloc_roll (size align : Z) (s : FFrameData) : bool :=
  bool_decide (u64 (Details.Align u32 (Head s) align + size) > ChunkSize s).

Definition alloc_offset (size align : Z) (s : FFrameData) : Z :=
  if alloc_roll size align s then 0 else Details.Align u32 (Head s) align.

Definition alloc_index (size align : Z) (s : FFrameData) : Z :=
  if alloc_roll size align s then u32 (ChunkHead s + 1) else ChunkHead s.

Definition alloc_pool (size align : Z) (h : Heap) (s : FFrameData)
    : Heap * list pointer :=
  let hc1 := grown (bool_decide (length (Chunks s) = 0%nat)) (ChunkSize s)
                   (h, Chunks s) in
  grown (alloc_roll size align s &&
         bool_decide (alloc_index size align s >= Z.of_nat (length (snd hc1))))
        (ChunkSize s) hc1.

Definition alloc_state (size align : Z) (h : Heap) (s : FFrameData) : FFrameData :=
  mkFrameData (TypeMap s) (snd (alloc_pool size align h s)) (ChunkSize s)
              (u32 (u64 (alloc_offset size align s + size)))
              (alloc_index size align s).

(** ** Invariants *)

(** Block identifiers at or above [next_block] have never been handed out. *)
Definition heap_wf (h : Heap) : Prop :=
  ∀ b, is_Some (live h !! b) → (b < next_block h)%nat.

Definition is_chunk (h : Heap) (size : Z) (p : pointer) : Prop :=
  ∃ b, p = Ptr b 0 ∧ live h !! b = Some size.

(** The pool invariant: the members are in range for their types, the
    active index designates a block unless the pool is empty, and the
    pool holds distinct live blocks of [ChunkSize] bytes. *)
Definition pool_ok (sz : Z) (hc : Heap * list pointer) : Prop :=
  heap_wf (fst hc) ∧ Forall (is_chunk (fst hc) sz) (snd hc) ∧ NoDup (snd hc).

Definition pool_wf (w : World) : Prop :=
  0 ≤ ChunkSize (snd w) < 2 ^ 32 ∧
  0 ≤ Head (snd w) < 2 ^ 32 ∧
  0 ≤ ChunkHead (snd w) < 2 ^ 32 ∧
  (ChunkHead (snd w) < Z.of_nat (length (Chunks (snd w))) ∨
   Chunks (snd w) = [] ∧ ChunkHead (snd w) = 0) ∧
  pool_ok (ChunkSize (snd w)) (fst w, Chunks (snd w)).

(** Containers obtained through the public interface. *)
Inductive reachable : World → Prop :=
  | reach_Construct h cs :
      heap_wf h → 0 ≤ cs < 2 ^ 32 → reachable (h, Construct cs)
  | reach_Push w w' T v :
      reachable w → CType_ok T → Push_compiles T →
      Push T v w = Some (tt, w') → reachable w'
  | reach_Clear w w' k :
      reachable w → Clear k w = Some (tt, w') → reachable w'
  | reach_Move h s :
      reachable (h, s) → reachable (h, fst (MoveConstruct s)).

(** The start of a frame: a new container, or one just reset. *)
Definition fresh_frame (w : World) : Prop :=
  (∃ h cs, heap_wf h ∧ 0 ≤ cs < 2 ^ 32 ∧ w = (h, Construct cs)) ∨
  (∃ w0 k, reachable w0 ∧ Clear k w0 = Some (tt, w)).

(** A byte range lies in the part of the pool already handed out. *)
Definition in_used (s : FFrameData) (p : pointer) (n : Z) : Prop :=
  ∃ (i : nat) b o,
    p = Ptr b o ∧ Chunks s !! i = Some (Ptr b 0) ∧ 0 ≤ o ∧ 0 ≤ n ∧
    ((Z.of_nat i < ChunkHead s ∧ o + n ≤ ChunkSize s) ∨
     (Z.of_nat i = ChunkHead s ∧ o + n ≤ Head s)).

(** The log of a frame: what was pushed, and where it went. *)
Definition Log : Type := list (CType * object * pointer).

Definition log_ptrs (key : Z) (log : Log) : list pointer :=
  omap (λ e, if decide (TTypeIndex (fst (fst e)) = key)
             then Some (snd e) else None) log.

Definition registry_of (log : Log) (tm : gmap Z (list pointer)) : Prop :=
  ∀ key, tm !! key =
         if decide (log_ptrs key log = []) then None
         else Some (log_ptrs key log).

Definition holds_value (h : Heap) (T : CType) (p : pointer) (v : object) : Prop :=
  ∃ obj, load p (sizeof T) h = Some obj ∧ bytes_eq (sizeof T) obj v.

Definition frame_inv (log : Log) (w : World) : Prop :=
  pool_wf w ∧
  Head (snd w) ≤ ChunkSize (snd w) ∧
  ChunkHead (snd w) ≤ Z.of_nat (length log) ∧
  registry_of log (TypeMap (snd w)) ∧
  Forall (λ e, in_used (snd w) (snd e) (sizeof (fst (fst e))) ∧
               holds_value (fst w) (fst (fst e)) (snd e) (snd (fst e))) log.

(** What [Query<T>] yields in a world: the view walks to the end with
    fuel equal to the number of elements, and the objects read through
    the addresses are the given values, in order. *)
Definition Query_yields (T : CType) (w : World) (vals : list object) : Prop :=
  ∃ ptrs, Query T (length ptrs) w = Some (ptrs, w) ∧
          Forall2 (holds_value (fst w) T) ptrs vals.

(** Insertion order and round trip for one frame. *)
Definition roundtrip_holds (w : World) (ops : list (CType * object))
    (T : CType) : Prop :=
  ∃ w', PushAll ops w = Some (tt, w') ∧ Query_yields T w' (pushed_as T ops).

(** ** Sample data

    An empty heap, a few types with the sizes and alignments they have on
    a 64-bit target, and values for them. *)

Definition empty_heap : Heap := mkHeap 0%nat ∅ (λ _ _, x00).

Definition T_char : CType :=
  mkCType "constexpr uint64_t Details::ComputeHash() [with T = char; uint64_t = long unsigned int]" 1 1.
Definition T_int32 : CType :=
  mkCType "constexpr uint64_t Details::ComputeHash() [with T = int; uint64_t = long unsigned int]" 4 4.
Definition T_int64 : CType :=
  mkCType "constexpr uint64_t Details::ComputeHash() [with T = long int; uint64_t = long unsigned int]" 8 8.
Definition T_Blob64 : CType :=
  mkCType "constexpr uint64_t Details::ComputeHash() [with T = Blob64; uint64_t = long unsigned int]" 64 64.
Definition T_Huge : CType :=
  mkCType "constexpr uint64_t Details::ComputeHash() [with T = Huge; uint64_t = long unsigned int]"
          4294967295 1.

Definition T_Big : CType :=
  mkCType "constexpr uint64_t Details::ComputeHash() [with T = Big; uint64_t = long unsigned int]"
          4032 64.

(** Two structures of one [int] whose signature strings have the same
    FNV-1a hash, 0xD1EC75D7B296D6EE. *)
Definition T_coll_a : CType :=
  mkCType "constexpr uint64_t Details::ComputeHash() [with T = Tdl1khk3rcucmh; uint64_t = long unsigned int]"
          4 4.
Definition T_coll_b : CType :=
  mkCType "constexpr uint64_t Details::ComputeHash() [with T = T33up1bbtd5dti; uint64_t = long unsigned int]"
          4 4.

(** A value whose bytes all are [x], and a 32-bit integer in little
    endian. *)
Definition filled (x : byte) : object := λ _, x.

Definition byte_of_Z (z : Z) : byte :=
  default x00 (Byte.of_N (Z.to_N (z mod 256))).
Definition int32_le (n : Z) : object := λ i, byte_of_Z (n / 256 ^ i).

(** The first [n] bytes of the object a pointer designates. *)
Definition read_bytes (h : Heap) (p : pointer) (n : nat) : option (list byte) :=
  match load p (Z.of_nat n) h with
  | Some obj => Some (map (λ i, obj (Z.of_nat i)) (seq 0 n))
  | None => None
  end.

(** What one looks at in the outcome of an allocation: the address, the
    pool, the intra-block offset and the active block index. *)
Definition observe (r : option (pointer * World))
    : option (pointer * list pointer * Z * Z) :=
  match r with
  | Some (p, w) => Some (p, Chunks (snd w), Head (snd w), ChunkHead (snd w))
  | None => None
  end.

(** The world a sequence of operations leaves. *)
Definition run_from (w : World) (m : M unit) : World :=
  match m w with
  | Some (_, w') => w'
  | None => w
  end.

Definition w_new64 : World := (empty_heap, Construct 64).

(** A container that has rolled over once: two blocks, active index 1. *)
Definition w_one_block : World := run_from w_new64 (Push T_Blob64 (filled x01)).
Definition w_two_blocks : World := run_from w_one_block (Push T_int32 (filled x02)).

(** A container with the largest block size, its first block full. *)
Definition w_huge : World := (empty_heap, Construct 4294967295).
Definition w_huge_full : World := run_from w_huge (Push T_Huge (filled x01)).

(** A container holding one [char]: the next 4-byte value has to be
    moved up to offset 4. *)
Definition w_char : World := run_from w_new64 (Push T_char (filled x07)).

(** A frame with two types interleaved. *)
Definition sample_frame : list (CType * object) :=
  [(T_int32, filled x0a); (T_Blob64, filled x02); (T_int32, filled x14)].

(** The scenarios of the specification, on blocks of 4096 bytes. *)
Definition w_4096 : World := (empty_heap, Construct 4096).

Definition w_three_ints : World :=
  run_from w_4096
    (PushAll [(T_int32, int32_le 10); (T_int32, int32_le 20); (T_int32, int32_le 30)]).

Definition w_two_big : World :=
  run_from w_4096 (PushAll [(T_Big, filled x01); (T_Big, filled x02)]).

Definition w_interleaved : World :=
  run_from w_4096
    (PushAll [(T_int32, int32_le 1); (T_char, filled x62); (T_int32, int32_le 2);
              (T_char, filled x63); (T_int32, int32_le 3)]).

(** The container of [w_huge_full] after one more push, of 64 bytes
    aligned to 64. *)
Definition w_huge_aliased : World :=
  run_from w_huge_full (Push T_Blob64 (filled x02)).

(** ** Whole lifetimes

    The operations a client performs on a container between its
    construction and its destruction. *)
Inductive Op : Type :=
  | DoPush (T : CType) (v : object)
  | DoClear (InSlack : nat).

Fixpoint run_ops (ops : list Op) : M unit :=
  match ops with
  | [] => ret tt
  | DoPush T v :: ops' => Push T v ;; run_ops ops'
  | DoClear k :: ops' => Clear k ;; run_ops ops'
  end.

(** A push is within its contract when the value fits a block. *)
Definition Op_fits (cs : Z) (op : Op) : Prop :=
  match op with
  | DoPush T _ => 0 ≤ sizeof T ≤ cs
  | DoClear _ => True
  end.

(** The heap holds the blocks of the pool, of [sz] bytes each and handed
    out after [h0] was taken, on top of what was live in [h0]; the bytes
    of the blocks of [h0] are as in [h0]. *)
Definition owned (h0 : Heap) (sz : Z) (hc : Heap * list pointer) : Prop :=
  (next_block h0 ≤ next_block (fst hc))%nat ∧
  (∀ b, Ptr b 0 ∈ snd hc → (next_block h0 ≤ b)%nat) ∧
  (∀ b, live (fst hc) !! b =
        if decide (Ptr b 0 ∈ snd hc) then Some sz else live h0 !! b) ∧
  (∀ b i, (b < next_block h0)%nat → mem (fst hc) b i = mem h0 b i).

(** The range of [n] bytes at [p] is in another block than [q], or
    ends at or before [q]. *)
Definition placed_before (p : pointer) (n : Z) (q : pointer) : Prop :=
  ∃ b o b' o', p = Ptr b o ∧ q = Ptr b' o' ∧ (b ≠ b' ∨ o + n ≤ o').

(** No value of the log shares a byte with a value pushed after it. *)
Definition log_disjoint (log : Log) : Prop :=
  ∀ (i j : nat) e1 e2, (i < j)%nat → log !! i = Some e1 → log !! j = Some e2 →
    placed_before (snd e1) (sizeof (fst (fst e1))) (snd e2).

(** Type isolation for one push: [Push<A>] returns, and [Query<B>]
    yields after it exactly the sequences of values it yielded before. *)
Definition isolation_holds (w : World) (A : CType) (v : object) (B : CType)
    : Prop :=
  ∃ w', Push A v w = Some (tt, w') ∧
        ∀ vals, Query_yields B w vals ↔ Query_yields B w' vals.





(** The multiplicative inverse of [Details.Prime] modulo 2^64. *)
Definition Prime_inverse : Z := 14886173955864302971.

(** A container with two spare blocks ahead of the active one. *)
Definition w_prewarmed : World := run_from w_new64 (Clear 3).

(** A short life: pushes, a reset that keeps one block, one more push. *)
Definition sample_life : list Op :=
  [DoPush T_Blob64 (filled x01); DoPush T_int32 (int32_le 5); DoClear 1;
   DoPush T_char (filled x61)].

(** * Properties *)

(** Splitting a conjunction of closed facts and evaluating each. *)
Ltac split_conj := repeat match goal with |- _ ∧ _ => split end.
Ltac by_evaluation := cbv zeta; split_conj; vm_compute; (reflexivity || discriminate).

(** ** Machine arithmetic *)

Section Arithmetic.

Lemma u32_small z : 0 ≤ z < 2 ^ 32 → u32 z = z.
Proof. intros. unfold u32. apply Z.mod_small. lia. Qed.

Lemma u64_small z : 0 ≤ z < 2 ^ 64 → u64 z = z.
Proof. intros. unfold u64. apply Z.mod_small. lia. Qed.

Lemma u32_range z : 0 ≤ u32 z < 2 ^ 32.
Proof. unfold u32. apply Z.mod_pos_bound. lia. Qed.

Lemma u64_range z : 0 ≤ u64 z < 2 ^ 64.
Proof. unfold u64. apply Z.mod_pos_bound. lia. Qed.

Lemma alignment_pos a : is_alignment a → 0 < a.
Proof. intros (k & Hk & ->). apply Z.pow_pos_nonneg; lia. Qed.

(** Alignments up to 64 are the powers of two with exponent at most 6. *)
Lemma alignment_le_64 a :
  is_alignment a → a ≤ 64 → ∃ k, 0 ≤ k ≤ 6 ∧ a = 2 ^ k.
Proof.
  intros (k & Hk & ->) Hle. exists k. split; [|done].
  split; [done|].
  destruct (decide (k ≤ 6)) as [|Hgt]; [done|].
  assert (2 ^ 7 ≤ 2 ^ k) by (apply Z.pow_le_mono_r; lia).
  change (2 ^ 7) with 128 in *. lia.
Qed.

Lemma alignment_divides_pow2 a n :
  is_alignment a → a ≤ 64 → 6 ≤ n → (a | 2 ^ n).
Proof.
  intros Ha Hle Hn. destruct (alignment_le_64 a Ha Hle) as (k & Hk & ->).
  exists (2 ^ (n - k)). rewrite <- Z.pow_add_r by lia. f_equal. lia.
Qed.

Lemma align_up_bounds x a : 0 < a → x ≤ align_up x a < x + a.
Proof.
  intros Ha. unfold align_up.
  pose proof (Z.div_mod (x + a - 1) a ltac:(lia)) as Hdm.
  pose proof (Z.mod_pos_bound (x + a - 1) a Ha). nia.
Qed.

Lemma align_up_divide x a : (a | align_up x a).
Proof. unfold align_up. apply Z.divide_factor_r. Qed.

Lemma align_up_aligned x a : 0 < a → (a | x) → align_up x a = x.
Proof.
  intros Ha [q ->]. unfold align_up.
  replace (q * a + a - 1) with (q * a + (a - 1)) by lia.
  rewrite Z.div_add_l by lia. rewrite (Z.div_small (a - 1) a) by lia. lia.
Qed.

(** Clearing the low [k] bits with the 64-bit mask of the source. *)
Lemma land_mask64 y k :
  0 ≤ k ≤ 6 → 0 ≤ y < 2 ^ 64 →
  Z.land y (u64 (Z.lnot (u64 (2 ^ k - 1)))) = y / 2 ^ k * 2 ^ k.
Proof.
  intros Hk Hy.
  assert (Hp : 0 < 2 ^ k ≤ 2 ^ 6).
  { split; [apply Z.pow_pos_nonneg; lia | apply Z.pow_le_mono_r; lia]. }
  change (2 ^ 6) with 64 in Hp.
  rewrite (u64_small (2 ^ k - 1)) by lia.
  unfold u64. rewrite <- (Z.land_ones _ 64) by lia.
  rewrite (Z.land_comm (Z.lnot _)), Z.land_assoc.
  rewrite (Z.land_ones y 64), (Z.mod_small y) by lia.
  rewrite <- Z.ldiff_land.
  replace (2 ^ k - 1) with (Z.ones k) by (rewrite Z.ones_equiv; lia).
  rewrite Z.ldiff_ones_r by lia.
  rewrite Z.shiftl_mul_pow2, Z.shiftr_div_pow2 by lia. done.
Qed.

(** [Details::Align] on a 32-bit value is rounding up, then truncation. *)
Lemma Align_u32 x a :
  0 ≤ x < 2 ^ 32 → is_alignment a → a ≤ 64 →
  Details.Align u32 x a = u32 (align_up x a).
Proof.
  intros Hx Ha Hle. destruct (alignment_le_64 a Ha Hle) as (k & Hk & ->).
  assert (Hp : 0 < 2 ^ k ≤ 2 ^ 6).
  { split; [apply Z.pow_pos_nonneg; lia | apply Z.pow_le_mono_r; lia]. }
  change (2 ^ 6) with 64 in Hp.
  unfold Details.Align, align_up.
  rewrite (u64_small x) by lia.
  rewrite (u64_small (x + 2 ^ k)) by lia.
  rewrite (u64_small (x + 2 ^ k - 1)) by lia.
  rewrite land_mask64 by lia. done.
Qed.

Lemma Align_u32_exact x a :
  0 ≤ x → x + a ≤ 2 ^ 32 → is_alignment a → a ≤ 64 →
  Details.Align u32 x a = align_up x a.
Proof.
  intros Hx Hxa Ha Hle. pose proof (alignment_pos a Ha).
  rewrite Align_u32 by (done || lia).
  pose proof (align_up_bounds x a ltac:(done)).
  apply u32_small. lia.
Qed.

(** Whatever the truncation does, the offset stays a multiple of the
    alignment. *)
Lemma Align_u32_divide x a :
  0 ≤ x < 2 ^ 32 → is_alignment a → a ≤ 64 →
  (a | Details.Align u32 x a).
Proof.
  intros Hx Ha Hle. rewrite Align_u32 by done.
  unfold u32.
  pose proof (alignment_pos a Ha).
  rewrite Z.mod_eq by lia. apply Z.divide_sub_r.
  - apply align_up_divide.
  - apply Z.divide_mul_l, alignment_divides_pow2; (done || lia).
Qed.

End Arithmetic.

(** ** The type fingerprint *)

Section Fingerprint.

Lemma get_list_ascii (s : string) (i : nat) :
  String.get i s = list_ascii_of_string s !! i.
Proof.
  revert i. induction s as [|c s IH]; intros [|i]; simpl; try done.
Qed.

Lemma length_list_ascii (s : string) :
  length (list_ascii_of_string s) = String.length s.
Proof. induction s; simpl; congruence. Qed.

Lemma fnv1a_step_eq h c :
  u64 (Z.lxor h (u8_of_char c) * Details.Prime) = fnv1a_step h (u8_of_char c).
Proof. done. Qed.

(** The loop, started at [Index] with enough fuel for the rest of the
    string, folds the remaining bytes into the hash. *)
Lemma ComputeHash_loop_fold TypeStr fuel Index Hash :
  (String.length TypeStr ≤ Index + fuel)%nat →
  Details.ComputeHash_loop fuel TypeStr Index Hash =
  Some (fold_left fnv1a_step (drop Index (string_bytes TypeStr)) Hash).
Proof.
  revert Index Hash. induction fuel as [|fuel IH]; intros Index Hash Hlen.
  - simpl. destruct (Nat.ltb_spec Index (String.length TypeStr)); [lia|].
    rewrite drop_ge; [done|]. unfold string_bytes.
    rewrite length_map, length_list_ascii. lia.
  - simpl. destruct (Nat.ltb_spec Index (String.length TypeStr)) as [Hlt|Hge].
    + rewrite get_list_ascii.
      destruct (lookup_lt_is_Some_2 (list_ascii_of_string TypeStr) Index)
        as [c Hc]; [by rewrite length_list_ascii|].
      rewrite Hc. rewrite fnv1a_step_eq, IH by lia.
      f_equal. unfold string_bytes.
      rewrite (drop_S _ (u8_of_char c) Index); [done|].
      by rewrite list_lookup_fmap, Hc.
    + rewrite drop_ge; [done|]. unfold string_bytes.
      rewrite length_map, length_list_ascii. lia.
Qed.

Lemma fnv1a_step_range h b : 0 ≤ fnv1a_step h b < 2 ^ 64.
Proof. unfold fnv1a_step. apply Z.mod_pos_bound. lia. Qed.

Lemma fnv1a_range bytes : 0 ≤ fnv1a bytes < 2 ^ 64.
Proof.
  unfold fnv1a.
  assert (H0 : 0 ≤ 0xCBF29CE484222325 < 2 ^ 64) by lia.
  revert H0. generalize 0xCBF29CE484222325.
  induction bytes as [|b bytes IH]; intros h Hh; simpl; [done|].
  apply IH, fnv1a_step_range.
Qed.

(** C8. The fingerprint of every type is the FNV-1a hash of its
    compile-time signature string: from the seed 0xCBF29CE484222325,
    each byte in order is XORed in and the hash multiplied by
    0x100000001B3 modulo 2^64. The loop always yields a value, the value
    is a 64-bit number, it depends on the string only, and [Push<T>]
    files the address under the very key [Data<T>] looks up. *)
Theorem C8_fingerprint_is_fnv1a (T : CType) :
  Details.ComputeHash (FUNCSIG T) = Some (fnv1a (string_bytes (FUNCSIG T))) ∧
  TTypeIndex T = fnv1a (string_bytes (FUNCSIG T)) ∧
  0 ≤ TTypeIndex T < 2 ^ 64 ∧
  (∀ U, FUNCSIG U = FUNCSIG T → TTypeIndex U = TTypeIndex T) ∧
  (∀ v w w', Push T v w = Some (tt, w') →
     ∃ ptrs, TypeMap (snd w') !! fnv1a (string_bytes (FUNCSIG T)) = Some ptrs ∧
             Data T w' = Some (mkRange (It (TTypeIndex T) 0)
                                       (It (TTypeIndex T) (length ptrs)), w')).
Proof.
  assert (Hh : Details.ComputeHash (FUNCSIG T) =
               Some (fnv1a (string_bytes (FUNCSIG T)))).
  { unfold Details.ComputeHash. rewrite ComputeHash_loop_fold by lia.
    by rewrite drop_0. }
  assert (Hi : TTypeIndex T = fnv1a (string_bytes (FUNCSIG T))).
  { unfold TTypeIndex. by rewrite Hh. }
  split; [done|]. split; [done|]. split; [rewrite Hi; apply fnv1a_range|].
  split; [intros U HU; unfold TTypeIndex; by rewrite HU|].
  intros v w w' HP. rewrite <- Hi.
  unfold Push, bind in HP.
  destruct (Allocate (sizeof T) (alignof T) w) as [[p w1]|]; [|done].
  destruct (on_heap (store p (sizeof T) v) w1) as [[[] w2]|]; [|done].
  unfold this, assign in HP. simpl in HP.
  destruct (TypeMap (snd w2) !! TTypeIndex T) as [vec|] eqn:Hvec;
    inversion HP; subst; clear HP; unfold Data, bind, this, ret; simpl;
    rewrite lookup_insert_eq; eauto.
Qed.

End Fingerprint.

(** ** The heap and the monad *)

Section HeapFacts.

Import Memory.

Lemma heap_wf_fresh h : heap_wf h → live h !! next_block h = None.
Proof.
  intros Hwf. destruct (live h !! next_block h) eqn:E; [|done].
  specialize (Hwf (next_block h) ltac:(eauto)). lia.
Qed.

Lemma heap_wf_extend h size : heap_wf h → heap_wf (heap_extend size h).
Proof.
  intros Hwf b. simpl. rewrite lookup_insert.
  case_decide; [lia|]. intros Hb. specialize (Hwf b Hb). lia.
Qed.

Lemma live_extend_old h size b sz :
  heap_wf h → live h !! b = Some sz → live (heap_extend size h) !! b = Some sz.
Proof.
  intros Hwf Hb. simpl. rewrite lookup_insert_ne; [done|].
  intros <-. rewrite heap_wf_fresh in Hb; done.
Qed.

Lemma is_chunk_extend h size sz p :
  heap_wf h → is_chunk h sz p → is_chunk (heap_extend size h) sz p.
Proof.
  intros Hwf (b & -> & Hb). exists b. eauto using live_extend_old.
Qed.

Lemma is_chunk_new h size :
  is_chunk (heap_extend size h) size (Ptr (next_block h) 0).
Proof. exists (next_block h). split; [done|]. simpl. apply lookup_insert_eq. Qed.

Lemma chunk_not_fresh h sz l :
  heap_wf h → Forall (is_chunk h sz) l → Ptr (next_block h) 0 ∉ l.
Proof.
  intros Hwf Hall Hin. rewrite Forall_forall in Hall.
  destruct (Hall _ Hin) as (b & Heq & Hb). inversion Heq; subst.
  rewrite heap_wf_fresh in Hb; done.
Qed.

Lemma PushChunk_eq_fun :
  PushChunk = λ w, Some (tt, (heap_extend (ChunkSize (snd w)) (fst w),
             set_Chunks (Chunks (snd w) ++ [Ptr (next_block (fst w)) 0]) (snd w))).
Proof. done. Qed.

Lemma PushChunk_eq h s :
  PushChunk (h, s) =
  Some (tt, (heap_extend (ChunkSize s) h,
             set_Chunks (Chunks s ++ [Ptr (next_block h) 0]) s)).
Proof. done. Qed.

End HeapFacts.

(** ** Allocate *)

Section AllocateFacts.

Import Memory.

(** [Allocate] with the monad unfolded. *)
Lemma Allocate_unfold size align h s :
  Allocate size align (h, s) =
  match vector_at (snd (alloc_pool size align h s)) (alloc_index size align s)
                  (fst (alloc_pool size align h s), alloc_state size align h s) with
  | Some (ChunkPtr, w) =>
      match ptr_add ChunkPtr (alloc_offset size align s) with
      | Some p => Some (p, w)
      | None => None
      end
  | None => None
  end.
Proof.
  unfold alloc_state, alloc_pool, alloc_index, alloc_offset, alloc_roll.
  unfold Allocate, bind, this, assign, ret, undefined, grown. simpl.
  rewrite !PushChunk_eq_fun.
  repeat case_bool_decide; repeat case_decide; try lia; simpl in *; try lia.
  all: unfold vector_at, ret, undefined; repeat case_decide; try done.
  all: destruct (_ !! _) as [[|b o]|]; simpl; try done.
  all: case_decide; done.
Qed.

Lemma grown_ok c sz hc : pool_ok sz hc → pool_ok sz (grown c sz hc).
Proof.
  intros (Hwf & Hall & Hnd). destruct c; [|done]. destruct hc as [h l].
  simpl in *. split; [by apply heap_wf_extend|]. split; simpl.
  - apply Forall_app. split.
    + eapply Forall_impl; [done|]. intros p. by apply is_chunk_extend.
    + apply Forall_singleton, is_chunk_new.
  - apply NoDup_app. split; [done|]. split; [|apply NoDup_singleton].
    intros p Hp Hp'. apply list_elem_of_singleton in Hp'. subst p.
    by eapply chunk_not_fresh.
Qed.

Lemma grown_prefix c sz hc : snd hc `prefix_of` snd (grown c sz hc).
Proof. destruct c; simpl; [by apply prefix_app_r|done]. Qed.

Lemma grown_length c sz hc :
  length (snd (grown c sz hc)) = (length (snd hc) + if c then 1 else 0)%nat.
Proof. destruct c; simpl; [by rewrite length_app|lia]. Qed.

Lemma grown_mem c sz hc : mem (fst (grown c sz hc)) = mem (fst hc).
Proof. by destruct c. Qed.

Lemma grown_heap_wf c sz hc : heap_wf (fst hc) → heap_wf (fst (grown c sz hc)).
Proof. destruct c; [|done]. simpl. apply heap_wf_extend. Qed.

Lemma grown_live c sz hc b n :
  heap_wf (fst hc) → live (fst hc) !! b = Some n →
  live (fst (grown c sz hc)) !! b = Some n.
Proof. destruct c; [|done]. simpl. apply live_extend_old. Qed.

Lemma alloc_pool_ok size align h s :
  pool_ok (ChunkSize s) (h, Chunks s) →
  pool_ok (ChunkSize s) (alloc_pool size align h s).
Proof. intros H. unfold alloc_pool. by do 2 apply grown_ok. Qed.

Lemma alloc_pool_prefix size align h s :
  Chunks s `prefix_of` snd (alloc_pool size align h s).
Proof.
  unfold alloc_pool. etrans; [|apply grown_prefix]. apply (grown_prefix _ _ (h, _)).
Qed.

Lemma alloc_pool_mem size align h s :
  mem (fst (alloc_pool size align h s)) = mem h.
Proof. unfold alloc_pool. by rewrite !grown_mem. Qed.

Lemma alloc_pool_live size align h s b n :
  heap_wf h → live h !! b = Some n →
  live (fst (alloc_pool size align h s)) !! b = Some n.
Proof.
  intros Hwf Hb. unfold alloc_pool. apply grown_live.
  - by apply grown_heap_wf.
  - by apply (grown_live _ _ (h, _)).
Qed.

Lemma u32_succ_le x : 0 ≤ x → 0 ≤ u32 (x + 1) ≤ x + 1.
Proof.
  intros Hx. split; [apply u32_range|]. unfold u32.
  apply Z.mod_le; lia.
Qed.

(** The block index [Allocate] ends with designates a block of the pool
    it ends with. *)
Lemma alloc_index_valid size align h s :
  pool_wf (h, s) →
  0 ≤ alloc_index size align s < 2 ^ 32 ∧
  alloc_index size align s < Z.of_nat (length (snd (alloc_pool size align h s))).
Proof.
  intros (Hcs & Hhd & Hch & Hidx & Hok). simpl in *.
  unfold alloc_pool, alloc_index.
  set (hc1 := grown _ _ (h, Chunks s)).
  assert (H1 : ChunkHead s < Z.of_nat (length (snd hc1))).
  { unfold hc1. rewrite grown_length. simpl.
    destruct Hidx as [Hlt|[Hnil Hz]]; [lia|].
    rewrite Hnil, Hz. simpl. lia. }
  destruct (alloc_roll size align s); simpl.
  - pose proof (u32_succ_le (ChunkHead s) ltac:(lia)) as Hs.
    pose proof (u32_range (ChunkHead s + 1)).
    split; [done|]. rewrite grown_length.
    case_bool_decide; simpl; lia.
  - split; [done|]. lia.
Qed.

(** On a pool that satisfies the invariant, [Allocate] returns the
    address it computes, in a block of the pool, and the invariant
    holds afterwards. *)
Lemma Allocate_wf size align h s :
  pool_wf (h, s) →
  ∃ b,
    Allocate size align (h, s) =
      Some (Ptr b (alloc_offset size align s),
            (fst (alloc_pool size align h s), alloc_state size align h s)) ∧
    snd (alloc_pool size align h s) !! Z.to_nat (alloc_index size align s)
      = Some (Ptr b 0) ∧
    live (fst (alloc_pool size align h s)) !! b = Some (ChunkSize s) ∧
    pool_wf (fst (alloc_pool size align h s), alloc_state size align h s).
Proof.
  intros Hwf. pose proof (alloc_index_valid size align h s Hwf) as [Hr Hlt].
  destruct Hwf as (Hcs & Hhd & Hch & Hidx & Hok). simpl in *.
  pose proof (alloc_pool_ok size align h s Hok) as Hok'.
  destruct (lookup_lt_is_Some_2 (snd (alloc_pool size align h s))
              (Z.to_nat (alloc_index size align s)) ltac:(lia)) as [p Hp].
  destruct Hok' as (Hwf' & Hall' & Hnd').
  pose proof Hall' as Hall2. rewrite Forall_forall in Hall2.
  destruct (Hall2 p) as (b & -> & Hb); [by eapply list_elem_of_lookup_2|].
  exists b. rewrite Allocate_unfold. unfold vector_at.
  rewrite decide_True by lia. rewrite Hp. simpl.
  split; [done|]. split; [done|]. split; [done|].
  unfold pool_wf, alloc_state; simpl.
  split; [done|]. split; [apply u32_range|]. split; [done|].
  split; [by left|]. done.
Qed.

End AllocateFacts.

(** ** Push *)

Section PushFacts.

Lemma store_inv p n v h h' :
  store p n v h = Some (tt, h') →
  ∃ b o sz, p = Ptr b o ∧ live h !! b = Some sz ∧ 0 ≤ o ∧ o + n ≤ sz ∧
    next_block h' = next_block h ∧ live h' = live h ∧
    mem h' = λ b' i, if decide (b' = b ∧ o ≤ i < o + n) then v (i - o) else mem h b' i.
Proof.
  unfold store. destruct p as [|b o]; [done|].
  destruct (live h !! b) as [sz|] eqn:Hb; [|done].
  case_decide as Hr; [|done]. intros [= <-]. exists b, o, sz. simpl.
  repeat split; (done || lia).
Qed.

Lemma store_defined b o n v h sz :
  live h !! b = Some sz → 0 ≤ o → o + n ≤ sz →
  ∃ h', store (Ptr b o) n v h = Some (tt, h').
Proof.
  intros Hb Ho Hn. unfold store. rewrite Hb, decide_True by lia. eauto.
Qed.

Lemma store_pool_ok p n v h h' sz c :
  store p n v h = Some (tt, h') → pool_ok sz (h, c) → pool_ok sz (h', c).
Proof.
  intros (b & o & sz' & -> & Hb & Ho & Hn & Hnext & Hlive & Hmem)%store_inv.
  intros (Hwf & Hall & Hnd). simpl in *. split; [|split; [|done]]; simpl.
  - intros b'. rewrite Hlive, Hnext. apply Hwf.
  - eapply Forall_impl; [done|]. intros p (b' & -> & Hb').
    exists b'. by rewrite Hlive.
Qed.

(** [Push] with the monad unfolded. *)
Lemma Push_unfold T v w :
  Push T v w =
  match Allocate (sizeof T) (alignof T) w with
  | Some (p, w1) =>
      match store p (sizeof T) v (fst w1) with
      | Some (_, h2) =>
          Some (tt, (h2, set_TypeMap
                           (<[TTypeIndex T :=
                                default [] (TypeMap (snd w1) !! TTypeIndex T) ++ [p]]>
                              (TypeMap (snd w1))) (snd w1)))
      | None => None
      end
  | None => None
  end.
Proof.
  unfold Push, bind, on_heap, this, assign.
  destruct (Allocate (sizeof T) (alignof T) w) as [[p [h1 s1]]|]; [|done].
  simpl. destruct (store p (sizeof T) v h1) as [[[] h2]|]; [|done].
  simpl. by destruct (TypeMap s1 !! TTypeIndex T).
Qed.

(** What a successful [Push] did, on a pool that satisfies the
    invariant. *)
Lemma Push_inv T v h s w' :
  pool_wf (h, s) → Push T v (h, s) = Some (tt, w') →
  let size := sizeof T in
  let align := alignof T in
  ∃ b h2,
    snd (alloc_pool size align h s) !! Z.to_nat (alloc_index size align s)
      = Some (Ptr b 0) ∧
    live (fst (alloc_pool size align h s)) !! b = Some (ChunkSize s) ∧
    store (Ptr b (alloc_offset size align s)) size v
          (fst (alloc_pool size align h s)) = Some (tt, h2) ∧
    w' = (h2, set_TypeMap
                (<[TTypeIndex T :=
                     default [] (TypeMap s !! TTypeIndex T)
                     ++ [Ptr b (alloc_offset size align s)]]> (TypeMap s))
                (alloc_state size align h s)) ∧
    pool_wf w'.
Proof.
  intros Hwf HP. simpl.
  destruct (Allocate_wf (sizeof T) (alignof T) h s Hwf) as (b & HA & Hidx & Hlive & Hwf').
  rewrite Push_unfold, HA in HP. cbn [fst snd] in HP.
  destruct (store _ _ _ _) as [[[] h2]|] eqn:Hst; [|done].
  inversion HP; subst w'; clear HP.
  exists b, h2. repeat (split; [done|]).
  destruct Hwf' as (? & ? & ? & ? & Hok). simpl in *.
  unfold pool_wf. simpl. repeat (split; [done|]). by eapply store_pool_ok.
Qed.

Lemma alloc_offset_fits size align s :
  0 ≤ ChunkSize s < 2 ^ 32 → 0 ≤ size ≤ ChunkSize s →
  0 ≤ alloc_offset size align s ∧ alloc_offset size align s + size ≤ ChunkSize s.
Proof.
  intros Hcs Hsz. unfold alloc_offset, alloc_roll.
  case_bool_decide as Hr; [lia|].
  pose proof (u32_range (Z.land (u64 (u64 (u64 (Head s) + align) - 1))
                                (u64 (Z.lnot (u64 (align - 1)))))) as Hoff.
  fold (Details.Align u32 (Head s) align) in Hoff.
  rewrite u64_small in Hr by lia. lia.
Qed.

(** Within its contract [Push] has defined behaviour. *)
Lemma Push_defined T v h s :
  pool_wf (h, s) → 0 ≤ sizeof T ≤ ChunkSize s →
  ∃ w', Push T v (h, s) = Some (tt, w').
Proof.
  intros Hwf Hsz.
  destruct (Allocate_wf (sizeof T) (alignof T) h s Hwf) as (b & HA & Hidx & Hlive & Hwf').
  destruct Hwf as (Hcs & _). simpl in Hcs.
  destruct (alloc_offset_fits (sizeof T) (alignof T) s Hcs Hsz) as [Ho Hf].
  destruct (store_defined b _ (sizeof T) v _ _ Hlive Ho Hf) as [h2 Hst].
  rewrite Push_unfold, HA. cbn [fst snd]. rewrite Hst. eauto.
Qed.

End PushFacts.

(** ** Clear *)

Section ClearFacts.

Import Memory.

(** [Clear] with the monad unfolded. *)
Lemma Clear_unfold k h s :
  Clear k (h, s) =
  if decide (k < length (Chunks s))%nat then
    match free_from (length (Chunks s)) k (Chunks s) h with
    | Some (_, h') =>
        Some (tt, (h', mkFrameData ∅ (resize k nullptr (Chunks s)) (ChunkSize s) 0 0))
    | None => None
    end
  else
    match alloc_from k (length (Chunks s)) k (ChunkSize s)
                     (resize k nullptr (Chunks s)) h with
    | Some (c', h') => Some (tt, (h', mkFrameData ∅ c' (ChunkSize s) 0 0))
    | None => None
    end.
Proof.
  unfold Clear, bind, assign, this, on_heap. simpl.
  case_decide; simpl.
  - by destruct (free_from _ _ _ _) as [[[] ?]|].
  - by destruct (alloc_from _ _ _ _ _ _) as [[? ?]|].
Qed.

(** The freeing loop releases exactly the blocks from position [i] on. *)
Lemma free_from_spec c fuel : ∀ i h,
  (length c ≤ i + fuel)%nat → NoDup c →
  (∀ j p, (i ≤ j)%nat → c !! j = Some p →
          ∃ b, p = Ptr b 0 ∧ is_Some (live h !! b)) →
  ∃ h', free_from fuel i c h = Some (tt, h') ∧
        next_block h' = next_block h ∧ mem h' = mem h ∧
        ∀ b, live h' !! b =
             if decide (Ptr b 0 ∈ drop i c) then None else live h !! b.
Proof.
  assert (Hdone : ∀ i h, (length c ≤ i)%nat →
            ∀ b, live h !! b =
                 if decide (Ptr b 0 ∈ drop i c) then None else live h !! b).
  { intros i h Hi b. rewrite drop_ge by lia.
    rewrite decide_False; [done|]. apply not_elem_of_nil. }
  induction fuel as [|fuel IH]; intros i h Hlen Hnd Hlive.
  - exists h. simpl. rewrite decide_False by lia.
    repeat (split; [done|]). apply Hdone. lia.
  - simpl. destruct (decide (i < length c)%nat) as [Hi|Hi];
      [|exists h; repeat (split; [done|]); apply Hdone; lia].
    destruct (lookup_lt_is_Some_2 c i Hi) as [p Hp].
    destruct (Hlive i p ltac:(lia) Hp) as (b & -> & [sz Hb]).
    rewrite Hp. unfold free. rewrite decide_True by done. rewrite Hb.
    set (h1 := mkHeap _ _ _).
    destruct (IH (S i) h1) as (h' & Hf & Hnext & Hmem & Hl); [lia|done| |].
    { intros j q Hj Hq. destruct (Hlive j q ltac:(lia) Hq) as (b' & -> & Hb').
      exists b'. split; [done|]. simpl. rewrite lookup_delete_ne; [done|].
      intros ->. assert (i = j) by (eapply NoDup_lookup; eauto). lia. }
    exists h'. rewrite Hf. repeat (split; [done|]). intros x.
    rewrite Hl. rewrite (drop_S c (Ptr b 0) i Hp). simpl.
    destruct (decide (x = b)) as [->|Hne].
    + rewrite (decide_True (P := Ptr b 0 ∈ Ptr b 0 :: _)) by (by left).
      case_decide; [done|]. apply lookup_delete_eq.
    + rewrite lookup_delete_ne by done. repeat case_decide; try done.
      * exfalso. apply H0. by right.
      * exfalso. apply elem_of_cons in H0 as [[= ?]|?]; done.
Qed.

(** The allocating loop fills the [n] null slots after [pre] with new
    blocks. *)
Lemma alloc_from_spec sz fuel : ∀ n pre h,
  (n ≤ fuel)%nat → pool_ok sz (h, pre) →
  ∃ new h',
    alloc_from fuel (length pre) (length pre + n) sz
               (pre ++ replicate n nullptr) h
      = Some (pre ++ new, h') ∧
    length new = n ∧ pool_ok sz (h', pre ++ new) ∧ mem h' = mem h ∧
    (∀ b m, live h !! b = Some m → live h' !! b = Some m) ∧
    Forall (λ p, ∃ b, p = Ptr b 0 ∧ live h !! b = None ∧ live h' !! b = Some sz) new.
Proof.
  assert (Hzero : ∀ f pre h, pool_ok sz (h, pre) →
    ∃ new h',
      alloc_from f (length pre) (length pre + 0) sz (pre ++ replicate 0 nullptr) h
        = Some (pre ++ new, h') ∧
      length new = 0%nat ∧ pool_ok sz (h', pre ++ new) ∧ mem h' = mem h ∧
      (∀ b m, live h !! b = Some m → live h' !! b = Some m) ∧
      Forall (λ p, ∃ b, p = Ptr b 0 ∧ live h !! b = None ∧ live h' !! b = Some sz) new).
  { intros f pre h Hok. exists [], h.
    change (replicate 0 nullptr) with (@nil pointer).
    assert (alloc_from f (length pre) (length pre + 0) sz (pre ++ []) h
            = Some (pre ++ [], h)) as ->.
    { destruct f; simpl; by rewrite decide_False by lia. }
    rewrite !app_nil_r.
    split; [done|]. split; [done|]. split; [done|]. split; [done|].
    split; [auto|]. constructor. }
  induction fuel as [|fuel IH]; intros n pre h Hn Hok.
  - assert (n = 0%nat) as -> by lia. by apply Hzero.
  - destruct n as [|n]; [by apply Hzero|].
    simpl. rewrite decide_True by lia.
    rewrite decide_True by (rewrite length_app; simpl; lia).
    pose proof (grown_ok true sz (h, pre) Hok) as Hok1. simpl in Hok1.
    destruct (IH n (pre ++ [Ptr (next_block h) 0]) (heap_extend sz h) ltac:(lia) Hok1)
      as (new & h' & Ha & Hlen & Hok' & Hmem & Hlive & Hnew).
    exists (Ptr (next_block h) 0 :: new), h'.
    rewrite length_app in Ha. simpl in Ha.
    replace (length pre + 1 + n)%nat with (length pre + S n)%nat in Ha by lia.
    rewrite Nat.add_1_r in Ha.
    rewrite insert_app_r_alt by lia. rewrite Nat.sub_diag. simpl.
    rewrite (cons_middle _ pre), app_assoc. rewrite Ha.
    rewrite <- app_assoc. simpl.
    destruct Hok as (Hwf & _). simpl in Hwf.
    split; [done|]. split; [simpl; lia|].
    split; [by rewrite <- app_assoc in Hok'|]. split; [done|].
    split.
    + intros b m Hb. apply Hlive. by apply live_extend_old.
    + constructor.
      * exists (next_block h). split; [done|]. split; [by apply heap_wf_fresh|].
        apply Hlive. simpl. apply lookup_insert_eq.
      * eapply Forall_impl; [done|]. intros p (b & -> & Hb & Hb').
        exists b. split; [done|]. split; [|done].
        simpl in Hb. rewrite lookup_insert in Hb. by case_decide.
Qed.

(** What [Clear] does on a pool that satisfies the invariant. *)
Lemma Clear_spec k h s :
  pool_wf (h, s) →
  ∃ h' c',
    Clear k (h, s) = Some (tt, (h', mkFrameData ∅ c' (ChunkSize s) 0 0)) ∧
    pool_wf (h', mkFrameData ∅ c' (ChunkSize s) 0 0) ∧
    length c' = k ∧ mem h' = mem h ∧
    (∀ b, Ptr b 0 ∈ take k (Chunks s) → live h' !! b = Some (ChunkSize s)) ∧
    ((k < length (Chunks s))%nat →
       c' = take k (Chunks s) ∧
       ∀ b, Ptr b 0 ∈ drop k (Chunks s) → is_Some (live h !! b) ∧ live h' !! b = None) ∧
    ((length (Chunks s) ≤ k)%nat →
       ∃ new, c' = Chunks s ++ new ∧ length new = (k - length (Chunks s))%nat ∧
         Forall (λ p, ∃ b, p = Ptr b 0 ∧ live h !! b = None ∧
                           live h' !! b = Some (ChunkSize s)) new).
Proof.
  intros (Hcs & Hhd & Hch & Hidx & Hwf & Hall & Hnd). simpl in *.
  rewrite Clear_unfold. rewrite Forall_forall in Hall.
  destruct (decide (k < length (Chunks s))%nat) as [Hlt|Hge].
  - destruct (free_from_spec (Chunks s) (length (Chunks s)) k h)
      as (h' & Hf & Hnext & Hmem & Hlive); [lia|done| |].
    { intros j p _ Hp. destruct (Hall p) as (b & -> & Hb);
        [by eapply list_elem_of_lookup_2|]. eauto. }
    exists h', (take k (Chunks s)). rewrite Hf, resize_le by lia.
    assert (Hkeep : ∀ b, Ptr b 0 ∈ take k (Chunks s) →
                         live h' !! b = Some (ChunkSize s)).
    { intros b Hb. rewrite Hlive, decide_False.
      - destruct (Hall (Ptr b 0)) as (b' & [= <-] & Hb');
          [by eapply subseteq_take|done].
      - intros Hd. rewrite <- (take_drop k (Chunks s)) in Hnd.
        apply NoDup_app in Hnd as (_ & Hdis & _). by eapply Hdis. }
    split; [done|]. split.
    { unfold pool_wf, pool_ok. simpl. split; [done|]. split; [lia|]. split; [lia|].
      split. { destruct k; [right; by rewrite take_0|left; rewrite length_take; lia]. }
      split; [|split].
      - intros b [sz Hb]. rewrite Hnext. apply Hwf. rewrite Hlive in Hb.
        case_decide; [done|eauto].
      - apply Forall_forall. intros p Hp.
        destruct (Hall p) as (b & -> & Hb); [by eapply subseteq_take|].
        exists b. split; [done|]. by apply Hkeep.
      - rewrite <- (take_drop k (Chunks s)) in Hnd.
        by apply NoDup_app in Hnd as (? & _). }
    split; [rewrite length_take; lia|]. split; [done|]. split; [done|].
    split; [|lia]. intros _. split; [done|]. intros b Hb. split.
    + destruct (Hall (Ptr b 0)) as (b' & [= <-] & Hb');
        [by eapply subseteq_drop|eauto].
    + rewrite Hlive. by rewrite decide_True.
  - rewrite resize_ge by lia.
    destruct (alloc_from_spec (ChunkSize s) k (k - length (Chunks s)) (Chunks s) h)
      as (new & h' & Ha & Hlen & Hok' & Hmem & Hlive & Hnew); [lia| |].
    { split; [done|]. split; [by apply Forall_forall|done]. }
    replace (length (Chunks s) + (k - length (Chunks s)))%nat with k in Ha by lia.
    exists h', (Chunks s ++ new). rewrite Ha. split; [done|]. split.
    { unfold pool_wf. simpl. split; [done|]. split; [lia|]. split; [lia|].
      split; [|done]. destruct (Chunks s ++ new) eqn:E; [by right|left; simpl; lia]. }
    split; [rewrite length_app; lia|]. split; [done|]. split.
    { intros b Hb. apply Hlive.
      destruct (Hall (Ptr b 0)) as (b' & [= <-] & Hb');
        [by eapply subseteq_take|done]. }
    split; [lia|]. intros _. exists new. done.
Qed.

Lemma Construct_wf h cs : heap_wf h → 0 ≤ cs < 2 ^ 32 → pool_wf (h, Construct cs).
Proof.
  intros Hwf Hcs. unfold pool_wf, pool_ok. simpl.
  repeat split; try lia; try done; [by right|apply NoDup_nil_2].
Qed.

(** Every container obtained through the interface satisfies the pool
    invariant. *)
Lemma reachable_wf w : reachable w → pool_wf w.
Proof.
  induction 1 as [h cs Hwf Hcs|w w' T v _ IH _ _ HP|w w' k _ IH HC|h s _ IH].
  - by apply Construct_wf.
  - destruct w as [h s]. by destruct (Push_inv T v h s w' IH HP) as (? & ? & ? & ? & ? & ? & ?).
  - destruct w as [h s].
    destruct (Clear_spec k h s IH) as (h' & c' & HC' & Hwf' & _).
    rewrite HC' in HC. by inversion HC; subst.
  - by destruct s.
Qed.

End ClearFacts.

(** ** Views *)

Section ViewFacts.

Lemma Data_eq T w :
  Data T w =
  Some (match TypeMap (snd w) !! TTypeIndex T with
        | Some vec => mkRange (It (TTypeIndex T) 0) (It (TTypeIndex T) (length vec))
        | None => mkRange NullIt NullIt
        end, w).
Proof. unfold Data, bind, this, ret. simpl. by destruct (_ !! _). Qed.

(** Walking a vector of the registry from position [i] to its end. *)
Lemma range_for_vec s key vec fuel : ∀ i,
  TypeMap s !! key = Some vec → (i ≤ length vec)%nat →
  (length vec - i ≤ fuel)%nat →
  range_for fuel s (It key i) (It key (length vec)) = Some (drop i vec).
Proof.
  induction fuel as [|fuel IH]; intros i Hvec Hi Hfuel.
  - assert (i = length vec) as -> by lia. simpl.
    rewrite decide_True by done. by rewrite drop_all.
  - simpl. destruct (decide (It key i = It key (length vec))) as [[= ->]|Hne].
    + by rewrite drop_all.
    + assert (i < length vec)%nat as Hlt.
      { destruct (decide (i = length vec)); [congruence|lia]. }
      rewrite Hvec. destruct (lookup_lt_is_Some_2 vec i Hlt) as [p Hp].
      rewrite Hp. rewrite IH by (done || lia).
      by rewrite (drop_S vec p i Hp).
Qed.

(** With too little fuel the walk does not reach the end. *)
Lemma range_for_short s key vec fuel : ∀ i,
  TypeMap s !! key = Some vec → (fuel < length vec - i)%nat →
  range_for fuel s (It key i) (It key (length vec)) = None.
Proof.
  induction fuel as [|fuel IH]; intros i Hvec Hfuel; simpl.
  - rewrite decide_False; [done|]. intros [= ->]. lia.
  - rewrite decide_False by (intros [= ->]; lia).
    rewrite Hvec. destruct (lookup_lt_is_Some_2 vec i ltac:(lia)) as [p Hp].
    rewrite Hp. rewrite IH by (done || lia). done.
Qed.

Lemma Query_short T fuel w vec :
  TypeMap (snd w) !! TTypeIndex T = Some vec → (fuel < length vec)%nat →
  Query T fuel w = None.
Proof.
  intros Hvec Hfuel. unfold Query, bind. rewrite Data_eq, Hvec.
  unfold this. cbn [fst snd Begin End_].
  rewrite (range_for_short _ _ vec) by (done || lia). done.
Qed.

Lemma Query_found T fuel w vec :
  TypeMap (snd w) !! TTypeIndex T = Some vec → (length vec ≤ fuel)%nat →
  Query T fuel w = Some (vec, w).
Proof.
  intros Hvec Hfuel. unfold Query, bind. rewrite Data_eq, Hvec.
  unfold this. simpl. rewrite (range_for_vec _ _ vec) by (done || lia).
  by rewrite drop_0.
Qed.

Lemma Query_absent T fuel w :
  TypeMap (snd w) !! TTypeIndex T = None → Query T fuel w = Some ([], w).
Proof.
  intros Hvec. unfold Query, bind. rewrite Data_eq, Hvec.
  unfold this. simpl. by destruct fuel.
Qed.

(** What a view yields has the length of the registry entry. *)
Lemma Query_yields_length T w vals vec :
  Query_yields T w vals → TypeMap (snd w) !! TTypeIndex T = Some vec →
  length vals = length vec.
Proof.
  intros (ptrs & HQ & HF) Hvec. apply Forall2_length in HF. rewrite <- HF.
  destruct (decide (length ptrs < length vec)%nat) as [Hlt|Hge].
  - by rewrite (Query_short T _ w vec Hvec Hlt) in HQ.
  - rewrite (Query_found T _ w vec Hvec) in HQ by lia. by inversion HQ.
Qed.


Lemma Allocate_TypeMap size align w p w1 :
  Allocate size align w = Some (p, w1) → TypeMap (snd w1) = TypeMap (snd w).
Proof.
  destruct w as [h s]. rewrite Allocate_unfold. unfold vector_at, ret, undefined.
  case_decide; [|done]. destruct (_ !! _); [|done]. simpl.
  destruct (ptr_add _ _); [|done]. by intros [= _ <-].
Qed.

(** The registry after a [Push]: the address is appended under the
    key of the type, nothing else changes. *)
Lemma Push_TypeMap T v w w' :
  Push T v w = Some (tt, w') →
  ∃ p, TypeMap (snd w') =
       <[TTypeIndex T := default [] (TypeMap (snd w) !! TTypeIndex T) ++ [p]]>
         (TypeMap (snd w)).
Proof.
  rewrite Push_unfold.
  destruct (Allocate _ _ _) as [[p w1]|] eqn:HA; [|done].
  destruct (store _ _ _ _) as [[[] h2]|]; [|done].
  intros [= <-]. exists p. simpl. by rewrite (Allocate_TypeMap _ _ _ _ _ HA).
Qed.

Lemma Clear_TypeMap k w w' :
  Clear k w = Some (tt, w') →
  TypeMap (snd w') = ∅ ∧ Head (snd w') = 0 ∧ ChunkHead (snd w') = 0.
Proof.
  destruct w as [h s]. rewrite Clear_unfold. case_decide.
  - destruct (free_from _ _ _ _) as [[[] ?]|]; [|done]. by intros [= <-].
  - destruct (alloc_from _ _ _ _ _ _) as [[? ?]|]; [|done]. by intros [= <-].
Qed.

Lemma fresh_frame_start w :
  fresh_frame w →
  pool_wf w ∧ TypeMap (snd w) = ∅ ∧ Head (snd w) = 0 ∧ ChunkHead (snd w) = 0.
Proof.
  intros [(h & cs & Hwf & Hcs & ->)|(w0 & k & Hr & HC)].
  - split; [by apply Construct_wf|done].
  - split; [|by eapply Clear_TypeMap].
    apply reachable_wf. by eapply reach_Clear.
Qed.

(** A frame of pushes leaves the keys it does not use as they were. *)
Lemma PushAll_other_key key ops : ∀ w w',
  PushAll ops w = Some (tt, w') →
  Forall (λ op, TTypeIndex (fst op) ≠ key) ops →
  TypeMap (snd w') !! key = TypeMap (snd w) !! key.
Proof.
  induction ops as [|[U v] ops IH]; intros w w' HP Hall.
  - by inversion HP.
  - simpl in HP. unfold bind in HP.
    destruct (Push U v w) as [[[] w1]|] eqn:HP1; [|done].
    apply Forall_cons in Hall as [Hne Hall]. simpl in Hne.
    rewrite (IH w1 w' HP Hall).
    destruct (Push_TypeMap _ _ _ _ HP1) as [p ->].
    by rewrite lookup_insert_ne.
Qed.

End ViewFacts.

(** ** Reset, queries and isolation *)

Section RegistryClaims.

(** C4. On every container obtained through the interface and for every
    slack [k], [Clear(k)] returns; afterwards the intra-block offset and
    the active block index are 0, no type association is left (every
    query yields a view of length 0), and the pool has exactly [k]
    blocks: when it had more, the first [k] are kept, still live, and
    the blocks of the tail are released; when it had fewer, new live
    blocks of [ChunkSize] bytes are appended; with [k = 0] the pool is
    empty and all its blocks are released. *)
Theorem C4_Clear_resets_and_resizes (k : nat) (h : Heap) (s : FFrameData) :
  reachable (h, s) →
  ∃ h' s',
    Clear k (h, s) = Some (tt, (h', s')) ∧
    Head s' = 0 ∧ ChunkHead s' = 0 ∧ TypeMap s' = ∅ ∧
    (∀ T fuel, Query T fuel (h', s') = Some ([], (h', s'))) ∧
    length (Chunks s') = k ∧
    (∀ b, Ptr b 0 ∈ take k (Chunks s) → live h' !! b = Some (ChunkSize s)) ∧
    ((k < length (Chunks s))%nat →
       Chunks s' = take k (Chunks s) ∧
       ∀ b, Ptr b 0 ∈ drop k (Chunks s) →
            is_Some (live h !! b) ∧ live h' !! b = None) ∧
    ((length (Chunks s) ≤ k)%nat →
       ∃ new, Chunks s' = Chunks s ++ new ∧
              length new = (k - length (Chunks s))%nat ∧
              Forall (λ p, ∃ b, p = Ptr b 0 ∧ live h !! b = None ∧
                                live h' !! b = Some (ChunkSize s)) new) ∧
    (k = 0%nat →
       Chunks s' = [] ∧ ∀ b, Ptr b 0 ∈ Chunks s → live h' !! b = None).
Proof.
  intros Hr. pose proof (reachable_wf _ Hr) as Hwf.
  destruct (Clear_spec k h s Hwf)
    as (h' & c' & HC & Hwf' & Hlen & Hmem & Hkeep & Hshrink & Hgrow).
  exists h', (mkFrameData ∅ c' (ChunkSize s) 0 0). simpl.
  split; [done|]. do 3 (split; [done|]).
  split; [intros T fuel; by apply Query_absent|].
  split; [done|]. split; [done|]. split; [done|]. split; [done|].
  intros ->. split; [by apply length_zero_iff_nil|].
  intros b Hb. destruct (Chunks s) as [|p c] eqn:E; [by apply elem_of_nil in Hb|].
  destruct Hshrink as [_ Hfree]; [simpl; lia|].
  rewrite drop_0 in Hfree. by apply Hfree.
Qed.

(** C6. (amended) [Data<T>] has no failure path: on every world it
    returns a view. When, since the start of the frame, nothing was pushed
    under the fingerprint of [T], the view has equal begin and end cursors
    and walking it yields no element, whatever the fuel. *)
Theorem C6_query_of_unpushed_type_is_empty
    (T : CType) (ops : list (CType * object)) (w w' : World) :
  fresh_frame w →
  PushAll ops w = Some (tt, w') →
  Forall (λ op, TTypeIndex (fst op) ≠ TTypeIndex T) ops →
  (∀ w0, ∃ r0, Data T w0 = Some (r0, w0)) ∧
  ∃ r, Data T w' = Some (r, w') ∧ Begin r = End_ r ∧
       ∀ fuel, Query T fuel w' = Some ([], w').
Proof.
  intros Hfresh HP Hall.
  split; [intros w0; rewrite Data_eq; eauto|].
  destruct (fresh_frame_start w Hfresh) as (_ & Hempty & _).
  assert (Hnone : TypeMap (snd w') !! TTypeIndex T = None).
  { rewrite (PushAll_other_key _ ops w w' HP Hall), Hempty. apply lookup_empty. }
  exists (mkRange NullIt NullIt). rewrite Data_eq, Hnone.
  split; [done|]. split; [done|]. intros fuel. by apply Query_absent.
Qed.

(** C10. [Data<T>] is an observer: on every world it returns a view and
    leaves the world (registry, pool, cursors and heap) as it was, so a
    type without an entry still has none; two queries in a row give the
    same view and the same walk. *)
Theorem C10_Data_is_pure (T : CType) (w : World) :
  ∃ r, Data T w = Some (r, w) ∧
       (r1 <- Data T ;; r2 <- Data T ;; ret (r1, r2)) w = Some ((r, r), w) ∧
       (TypeMap (snd w) !! TTypeIndex T = None → r = mkRange NullIt NullIt) ∧
       ∀ fuel,
         (l1 <- Query T fuel ;; l2 <- Query T fuel ;; ret (l1, l2)) w =
         match Query T fuel w with
         | Some (l, _) => Some ((l, l), w)
         | None => None
         end.
Proof.
  eexists. split; [apply Data_eq|].
  split; [unfold bind; by rewrite !Data_eq|].
  split; [by intros ->|].
  intros fuel. unfold Query, bind. rewrite !Data_eq. unfold this. cbn [fst snd].
  destruct (range_for _ _ _ _) as [l|] eqn:E; [|done].
  unfold ret. cbn [fst snd]. by rewrite Data_eq, E.
Qed.


End RegistryClaims.

(** ** The allocation algorithm *)

Section AllocateClaims.

Import Memory.

(** Where no 32-bit quantity wraps, [Allocate] is the algorithm of the
    specification: same address, same heap, same container. *)
Lemma Allocate_refines_spec size align h s :
  pool_wf (h, s) →
  is_alignment align → align ≤ 64 → 0 ≤ size ≤ ChunkSize s →
  Head s ≤ ChunkSize s → ChunkSize s ≤ 2 ^ 32 - 64 → ChunkHead s + 1 < 2 ^ 32 →
  Allocate size align (h, s) = Allocate_spec size align (h, s).
Proof.
  intros Hwf Ha Hle Hsz Hhd Hcs Hch.
  pose proof Hwf as (Hcs' & Hhd' & Hch' & Hidx & Hok). simpl in *.
  pose proof (alignment_pos align Ha) as Hpos.
  pose proof (align_up_bounds (Head s) align Hpos) as Hup.
  assert (Hal : Details.Align u32 (Head s) align = align_up (Head s) align)
    by (apply Align_u32_exact; (done || lia)).
  rewrite Allocate_unfold.
  unfold alloc_state, alloc_pool, alloc_index, alloc_offset, alloc_roll.
  rewrite Hal. rewrite (u64_small (align_up (Head s) align + size)) by lia.
  rewrite (u32_small (ChunkHead s + 1)) by lia.
  unfold Allocate_spec, bind, this, assign, ret, undefined, grown. simpl.
  rewrite !PushChunk_eq_fun.
  rewrite !Z.add_0_l.
  assert (Hlen : length (Chunks s) = 0%nat ↔ Chunks s = [])
    by apply length_zero_iff_nil.
  destruct (decide (align_up (Head s) align + size > ChunkSize s)) as [Hr|Hr];
    [rewrite (bool_decide_eq_true_2 _ Hr)|rewrite (bool_decide_eq_false_2 _ Hr)];
    simpl; rewrite ?(u64_small size), ?(u32_small size) by lia;
    rewrite ?(u64_small (align_up (Head s) align + size)),
            ?(u32_small (align_up (Head s) align + size)) by lia;
    (destruct (decide (Chunks s = [])) as [Hnil|Hnil];
     [rewrite (bool_decide_eq_true_2 _ (proj2 Hlen Hnil))
     |rewrite (bool_decide_eq_false_2 (length (Chunks s) = 0%nat))
        by (by rewrite Hlen)]);
    simpl; rewrite ?Hnil; simpl;
    repeat case_decide; repeat case_bool_decide; simpl in *;
    rewrite ?Hnil in *; simpl in *; try lia; try done.
  all: rewrite ?Z.add_0_l, ?(u64_small size), ?(u32_small size) by lia.
  all: unfold vector_at, ret, undefined; repeat case_decide; try done.
  all: destruct (_ !! _) as [[|b o]|]; simpl; try done.
  all: try case_decide; done.
Qed.


(** C9. Exact fit: on every container obtained through the interface,
    when the offset rounded up to the alignment plus the size is exactly
    [ChunkSize], [Allocate] serves the request at that offset in the
    active block, without advancing the block index and without
    acquiring a block (other than the base block of an empty pool), and
    leaves the intra-block offset at [ChunkSize]. *)
Theorem C9_exact_fit_stays_in_block (size align : Z) (h : Heap) (s : FFrameData) :
  reachable (h, s) →
  is_alignment align → align ≤ 64 → 0 ≤ size →
  align_up (Head s) align + size = ChunkSize s →
  ∃ b h' s',
    Allocate size align (h, s) =
      Some (Ptr b (align_up (Head s) align), (h', s')) ∧
    ChunkHead s' = ChunkHead s ∧ Head s' = ChunkSize s ∧
    Chunks s' !! Z.to_nat (ChunkHead s) = Some (Ptr b 0) ∧
    (Chunks s ≠ [] → Chunks s' = Chunks s ∧ h' = h) ∧
    (Chunks s = [] → Chunks s' = [Ptr b 0] ∧ live h !! b = None).
Proof.
  intros Hr Ha Hle Hsz Hfit. pose proof (reachable_wf _ Hr) as Hwf.
  pose proof Hwf as (Hcs & Hhd & Hch & Hidx & Hok). simpl in *.
  pose proof (alignment_pos align Ha) as Hpos.
  pose proof (align_up_bounds (Head s) align Hpos) as Hup.
  assert (Hal : Details.Align u32 (Head s) align = align_up (Head s) align).
  { rewrite Align_u32 by done. apply u32_small. lia. }
  assert (Hroll : alloc_roll size align s = false).
  { unfold alloc_roll. rewrite Hal, Hfit. rewrite u64_small by lia.
    apply bool_decide_eq_false_2. lia. }
  destruct (Allocate_wf size align h s Hwf) as (b & HA & Hb & Hlive & _).
  unfold alloc_state, alloc_pool, alloc_index, alloc_offset in HA, Hb, Hlive.
  rewrite Hroll, Hal in *. simpl in HA, Hb, Hlive.
  rewrite Hfit, (u64_small (ChunkSize s)), (u32_small (ChunkSize s)) in HA by lia.
  eexists b, _, _. split; [exact HA|]. simpl.
  split; [done|]. split; [done|]. split; [done|]. split.
  - intros Hne. rewrite bool_decide_eq_false_2 by (by rewrite length_zero_iff_nil).
    done.
  - intros Hnil. rewrite Hnil in *. simpl in *.
    destruct Hidx as [?|[_ Hz]]; [lia|]. rewrite Hz in Hb. simpl in Hb.
    inversion Hb; subst b. split; [done|].
    destruct Hok as (Hh & _). by apply heap_wf_fresh.
Qed.

Lemma load_store_same b o n v h h' :
  store (Ptr b o) n v h = Some (tt, h') →
  ∃ obj, load (Ptr b o) n h' = Some obj ∧ bytes_eq n obj v.
Proof.
  intros (b' & o' & sz & [= <- <-] & Hb & Ho & Hn & _ & Hlive & Hmem)%store_inv.
  unfold load. rewrite Hlive, Hb, decide_True by lia.
  eexists. split; [done|]. intros i Hi. rewrite Hmem.
  rewrite decide_True by lia. f_equal. lia.
Qed.

End AllocateClaims.

(** ** Alignment of the stored values *)

Section Alignment.

(** The addresses the allocator gave to the blocks; [aligned_alloc] was
    asked for multiples of [ChunkAlignment]. *)
Variable base : block → Z.
Hypothesis base_aligned : ∀ b, base b mod 64 = 0.

Lemma base_divide a b : is_alignment a → a ≤ 64 → (a | base b).
Proof.
  intros Ha Hle. etrans; [by apply (alignment_divides_pow2 _ 6)|].
  apply Z.mod_divide; [done|]. apply base_aligned.
Qed.

(** C5. Alignment: on every container obtained through the interface,
    for a type with a power-of-two alignment of at most 64 and a size
    of at most [ChunkSize], [Push<T>] returns, the address it files
    last under the key of [T] holds the bytes of the value, and that
    address is a multiple of [alignof(T)] whenever the base addresses of
    the blocks are multiples of 64. *)
Theorem C5_pushed_address_is_aligned
    (T : CType) (v : object) (h : Heap) (s : FFrameData) :
  reachable (h, s) →
  CType_ok T → alignof T ≤ 64 → sizeof T ≤ ChunkSize s →
  ∃ w' ptrs p,
    Push T v (h, s) = Some (tt, w') ∧
    TypeMap (snd w') !! TTypeIndex T = Some (ptrs ++ [p]) ∧
    holds_value (fst w') T p v ∧
    address base p mod alignof T = 0.
Proof.
  intros Hr [Hsz Ha] Hle Hfit. pose proof (reachable_wf _ Hr) as Hwf.
  destruct (Push_defined T v h s Hwf ltac:(lia)) as [w' HP].
  destruct (Push_inv T v h s w' Hwf HP) as (b & h2 & Hidx & Hlive & Hst & -> & Hwf').
  eexists _, _, _. split; [exact HP|]. simpl.
  split; [apply lookup_insert_eq|]. split; [by eapply load_store_same|].
  pose proof (alignment_pos _ Ha) as Hpos.
  apply Z.mod_divide; [lia|]. apply Z.divide_add_r; [by apply base_divide|].
  unfold alloc_offset. destruct (alloc_roll _ _ _); [apply Z.divide_0_r|].
  destruct Hwf as (_ & Hhd & _). by apply Align_u32_divide.
Qed.

End Alignment.

(** ** Insertion order and round trip *)

Section FrameFacts.

(** The cases of [Allocate] where no 32-bit quantity wraps. *)
Lemma alloc_nowrap size align s :
  0 ≤ Head s ≤ ChunkSize s → ChunkSize s ≤ 2 ^ 32 - 64 →
  0 ≤ ChunkHead s → ChunkHead s + 1 < 2 ^ 32 →
  is_alignment align → align ≤ 64 → 0 ≤ size ≤ ChunkSize s →
  u32 (u64 (alloc_offset size align s + size)) = alloc_offset size align s + size ∧
  (alloc_roll size align s = false ∧ alloc_index size align s = ChunkHead s ∧
   Head s ≤ alloc_offset size align s ∧
   alloc_offset size align s + size ≤ ChunkSize s
   ∨
   alloc_roll size align s = true ∧ alloc_index size align s = ChunkHead s + 1 ∧
   alloc_offset size align s = 0).
Proof.
  intros Hhd Hcs Hch0 Hch Ha Hle Hsz.
  pose proof (alignment_pos align Ha) as Hpos.
  pose proof (align_up_bounds (Head s) align Hpos) as Hup.
  assert (Hal : Details.Align u32 (Head s) align = align_up (Head s) align)
    by (apply Align_u32_exact; (done || lia)).
  unfold alloc_index, alloc_offset, alloc_roll. rewrite Hal.
  rewrite (u64_small (align_up (Head s) align + size)) by lia.
  case_bool_decide as Hr.
  - rewrite Z.add_0_l, u64_small, u32_small by lia. split; [done|]. right.
    rewrite u32_small by lia. done.
  - rewrite u64_small, u32_small by lia. split; [done|]. left.
    repeat split; lia.
Qed.

Lemma log_ptrs_app key (l1 l2 : Log) :
  log_ptrs key (l1 ++ l2) = log_ptrs key l1 ++ log_ptrs key l2.
Proof. unfold log_ptrs. apply omap_app. Qed.

Lemma log_ptrs_singleton key T v p :
  log_ptrs key [(T, v, p)] = if decide (TTypeIndex T = key) then [p] else [].
Proof. unfold log_ptrs. simpl. by case_decide. Qed.

Lemma registry_of_push (log : Log) tm T v p :
  registry_of log tm →
  registry_of (log ++ [(T, v, p)])
    (<[TTypeIndex T := default [] (tm !! TTypeIndex T) ++ [p]]> tm).
Proof.
  intros Hreg key. rewrite log_ptrs_app, log_ptrs_singleton, lookup_insert.
  destruct (decide (TTypeIndex T = key)) as [<-|Hne].
  - rewrite (Hreg (TTypeIndex T)).
    rewrite (decide_False (P := _ ++ [p] = [])).
    + by case_decide as E; [rewrite E|].
    + intros [_ ?]%app_nil. done.
  - rewrite app_nil_r. apply Hreg.
Qed.

(** Where nothing wraps, a [Push] within its contract writes into the
    part of the pool not yet handed out: every value that lies in the used
    part stays in the used part and keeps its bytes. *)
Lemma Push_keeps_used_values T v h s w' :
  pool_wf (h, s) → Head s ≤ ChunkSize s →
  ChunkSize s ≤ 2 ^ 32 - 64 → ChunkHead s + 1 < 2 ^ 32 →
  CType_ok T → alignof T ≤ 64 → sizeof T ≤ ChunkSize s →
  Push T v (h, s) = Some (tt, w') →
  ∀ U q u, in_used s q (sizeof U) → holds_value h U q u →
           in_used (snd w') q (sizeof U) ∧ holds_value (fst w') U q u.
Proof.
  intros Hwf Hhd Hcs Hch [Hsz Ha] Hle Hfit HP U q u.
  destruct (Push_inv T v h s w' Hwf HP) as (b & h2 & Hidx & Hlive & Hst & -> & Hwf').
  pose proof Hwf as (Hcs' & Hhd' & Hch' & _ & Hh & Hall & _). simpl in *.
  destruct (alloc_nowrap (sizeof T) (alignof T) s) as [Hhead Hcase]; try lia; try done.
  pose proof (alloc_pool_ok (sizeof T) (alignof T) h s
                ltac:(destruct Hwf as (_ & _ & _ & _ & ?); done)) as (_ & _ & Hnd2).
  pose proof (store_inv _ _ _ _ _ Hst) as
    (b0 & o0 & sz0 & [= <- <-] & _ & _ & _ & _ & Hlive2 & Hmem2).
  intros (i & b' & o' & -> & Hi & Ho' & Hn' & Hused) (obj & Hload & Hbytes).
  assert (Hi2 : snd (alloc_pool (sizeof T) (alignof T) h s) !! i = Some (Ptr b' 0)).
  { eapply prefix_lookup_Some; [exact Hi|apply alloc_pool_prefix]. }
  split.
  - exists i, b', o'. split; [done|]. split; [done|]. split; [done|].
    split; [done|]. simpl. rewrite Hhead.
    destruct Hcase as [(_ & Hi' & Hge & _)|(_ & Hi' & _)];
      destruct Hused as [[? ?]|[? ?]]; lia.
  - unfold holds_value, load in *.
    destruct (live h !! b') as [sz'|] eqn:Hb'; [|done].
    rewrite Hlive2.
    rewrite (alloc_pool_live (sizeof T) (alignof T) h s b' sz' Hh Hb').
    case_decide as Hr; [|done]. inversion Hload; subst obj; clear Hload.
    eexists. split; [done|]. intros j Hj. rewrite <- (Hbytes j Hj).
    rewrite Hmem2. rewrite alloc_pool_mem.
    rewrite decide_False; [done|]. intros [-> Hrange].
    assert (i = Z.to_nat (alloc_index (sizeof T) (alignof T) s))
      by (eapply NoDup_lookup; eauto).
    destruct Hcase as [(_ & Hi' & Hge & _)|(_ & Hi' & _)];
      destruct Hused as [[? ?]|[? ?]]; lia.
Qed.

(** One [Push] within its contract extends the log by the value and
    the address it got, and keeps every logged value readable. *)
Lemma Push_frame_inv (log : Log) T v h s :
  frame_inv log (h, s) →
  CType_ok T → alignof T ≤ 64 → sizeof T ≤ ChunkSize s →
  ChunkSize s ≤ 2 ^ 32 - 64 → Z.of_nat (length log) < 2 ^ 32 - 1 →
  ∃ w' p, Push T v (h, s) = Some (tt, w') ∧
          frame_inv (log ++ [(T, v, p)]) w' ∧
          ChunkSize (snd w') = ChunkSize s.
Proof.
  intros (Hwf & Hhd & Hch & Hreg & Hlog) Hok Hle Hfit Hcs Hlen. simpl in *.
  pose proof Hok as [Hsz Ha].
  destruct (Push_defined T v h s Hwf ltac:(lia)) as [w' HP].
  pose proof Hwf as (Hcs' & Hhd' & Hch' & _). simpl in Hcs', Hhd', Hch'.
  pose proof (Push_keeps_used_values T v h s w' Hwf Hhd Hcs ltac:(lia) Hok Hle Hfit HP)
    as Hkeep.
  destruct (Push_inv T v h s w' Hwf HP) as (b & h2 & Hidx & Hlive & Hst & -> & Hwf').
  destruct (alloc_nowrap (sizeof T) (alignof T) s) as [Hhead Hcase]; try lia; try done.
  assert (Hoff : 0 ≤ alloc_offset (sizeof T) (alignof T) s ∧
                 alloc_offset (sizeof T) (alignof T) s + sizeof T ≤ ChunkSize s).
  { destruct Hcase as [(_ & _ & ? & ?)|(_ & _ & Hz)]; lia. }
  eexists _, _. split; [exact HP|]. split; [|done].
  split; [done|]. simpl. rewrite Hhead.
  split; [lia|]. split.
  { rewrite length_app. simpl.
    destruct Hcase as [(_ & Hi & _)|(_ & Hi & _)]; lia. }
  split; [by apply registry_of_push|].
  apply Forall_app. split.
  - eapply Forall_impl; [exact Hlog|]. intros [[U u] q]. simpl.
    intros [Hu Hv]. by apply Hkeep.
  - apply Forall_singleton. simpl. split.
    + eexists (Z.to_nat _), b, _.
      split; [done|]. split; [done|]. split; [lia|]. split; [lia|].
      right. simpl. rewrite Hhead. lia.
    + by eapply load_store_same.
Qed.

Lemma PushAll_frame_inv ops : ∀ (log : Log) w,
  frame_inv log w →
  Forall (λ op, CType_ok (fst op) ∧ alignof (fst op) ≤ 64 ∧
                sizeof (fst op) ≤ ChunkSize (snd w)) ops →
  ChunkSize (snd w) ≤ 2 ^ 32 - 64 →
  Z.of_nat (length log + length ops) < 2 ^ 32 →
  ∃ w' log', PushAll ops w = Some (tt, w') ∧
             frame_inv (log ++ log') w' ∧ map fst log' = ops.
Proof.
  induction ops as [|[T v] ops IH]; intros log [h s] Hinv Hall Hcs Hlen.
  - exists (h, s), []. rewrite app_nil_r. done.
  - apply Forall_cons in Hall as [(Hok & Hle & Hfit) Hall]. simpl in *.
    destruct (Push_frame_inv log T v h s Hinv Hok Hle Hfit Hcs ltac:(lia))
      as (w1 & p & HP & Hinv1 & Hcs1).
    destruct (IH (log ++ [(T, v, p)]) w1 Hinv1) as (w' & log' & HP' & Hinv' & Hmap).
    + by rewrite Hcs1.
    + by rewrite Hcs1.
    + rewrite length_app. simpl. lia.
    + exists w', ((T, v, p) :: log'). unfold bind. rewrite HP, HP'.
      split; [done|]. split; [by rewrite <- app_assoc in Hinv'|].
      simpl. by rewrite Hmap.
Qed.

(** With no fingerprint shared between [T] and another pushed type, the
    addresses filed under the key of [T] hold the values pushed as [T],
    in order. *)
Lemma values_match T h (log : Log) :
  Forall (λ e, holds_value h (fst (fst e)) (snd e) (snd (fst e))) log →
  Forall (λ op, TTypeIndex (fst op) = TTypeIndex T → fst op = T) (map fst log) →
  Forall2 (holds_value h T) (log_ptrs (TTypeIndex T) log) (pushed_as T (map fst log)).
Proof.
  induction log as [|[[U u] p] log IH]; intros Hval Hnc; [constructor|].
  apply Forall_cons in Hval as [Hv Hval]. simpl in Hnc.
  apply Forall_cons in Hnc as [Hc Hnc]. simpl in *.
  unfold log_ptrs, pushed_as. simpl.
  destruct (decide (TTypeIndex U = TTypeIndex T)) as [Heq|Hne].
  - specialize (Hc Heq). subst U. rewrite decide_True by done. simpl.
    constructor; [done|]. by apply IH.
  - rewrite decide_False by (by intros ->). simpl. by apply IH.
Qed.

Lemma fresh_frame_inv w : fresh_frame w → frame_inv [] w.
Proof.
  intros (Hwf & Hempty & Hhd & Hch)%fresh_frame_start.
  split; [done|]. pose proof Hwf as (Hcs & _).
  split; [lia|]. split; [simpl; lia|]. split; [|constructor].
  intros key. rewrite Hempty. simpl. apply lookup_empty.
Qed.

(** C3. (amended) From the start of a frame, for every list of fewer
    than 2^32 pushes of types with a power-of-two alignment of at most
    64 and a size of at most [ChunkSize], on a container whose
    [ChunkSize] is at most 2^32 - 64, and for every type [T] whose
    fingerprint no other pushed type shares: the pushes return, and the
    view of [T] yields exactly the values pushed as [T], in push order,
    each read back byte for byte. *)
Theorem C3_roundtrip_in_push_order
    (T : CType) (ops : list (CType * object)) (w : World) :
  fresh_frame w →
  Forall (λ op, CType_ok (fst op) ∧ alignof (fst op) ≤ 64 ∧
                sizeof (fst op) ≤ ChunkSize (snd w)) ops →
  Forall (λ op, TTypeIndex (fst op) = TTypeIndex T → fst op = T) ops →
  ChunkSize (snd w) ≤ 2 ^ 32 - 64 →
  Z.of_nat (length ops) < 2 ^ 32 →
  roundtrip_holds w ops T.
Proof.
  intros Hfresh Hall Hnc Hcs Hlen.
  destruct (PushAll_frame_inv ops [] w (fresh_frame_inv w Hfresh) Hall Hcs Hlen)
    as (w' & log & HP & Hinv & Hmap).
  exists w'. split; [done|]. simpl in Hinv.
  destruct Hinv as (_ & _ & _ & Hreg & Hlog).
  exists (log_ptrs (TTypeIndex T) log). split.
  - specialize (Hreg (TTypeIndex T)). case_decide as E.
    + rewrite E. by apply Query_absent.
    + by apply Query_found.
  - rewrite <- Hmap. apply values_match; [|by rewrite Hmap].
    eapply Forall_impl; [done|]. by intros e [_ ?].
Qed.

End FrameFacts.

(** ** The scenarios of the specification *)

Section Scenarios.

(** Three integers come back in push order, with their bytes. *)
Example scenario_three_ints :
  fst <$> Query T_int32 3 w_three_ints
    = Some [Ptr 0%nat 0; Ptr 0%nat 4; Ptr 0%nat 8] ∧
  map (λ p, read_bytes (fst w_three_ints) p 4)
      [Ptr 0%nat 0; Ptr 0%nat 4; Ptr 0%nat 8]
    = [Some [x0a; x00; x00; x00]; Some [x14; x00; x00; x00];
       Some [x1e; x00; x00; x00]].
Proof. by_evaluation. Qed.

(** The second large value does not fit and goes to a second block. *)
Example scenario_second_block :
  fst <$> Query T_Big 2 w_two_big = Some [Ptr 0%nat 0; Ptr 1%nat 0] ∧
  Chunks (snd w_two_big) = [Ptr 0%nat 0; Ptr 1%nat 0] ∧
  ChunkHead (snd w_two_big) = 1.
Proof. by_evaluation. Qed.

(** [Clear(0)] empties the registry and the pool; [Clear(2)] on a new
    container reserves two blocks. *)
Example scenario_reset :
  fst <$> (Clear 0 ;; Query T_int32 0) w_three_ints = Some [] ∧
  (Chunks ∘ snd ∘ snd) <$> Clear 0 w_three_ints = Some [] ∧
  (Chunks ∘ snd ∘ snd) <$> Clear 2 w_4096 = Some [Ptr 0%nat 0; Ptr 1%nat 0].
Proof. by_evaluation. Qed.

(** Two types interleaved: each view has its own values, in order. *)
Example scenario_interleaved :
  fst <$> Query T_int32 3 w_interleaved
    = Some [Ptr 0%nat 0; Ptr 0%nat 8; Ptr 0%nat 16] ∧
  fst <$> Query T_char 2 w_interleaved = Some [Ptr 0%nat 4; Ptr 0%nat 12] ∧
  map (λ p, read_bytes (fst w_interleaved) p 1) [Ptr 0%nat 4; Ptr 0%nat 12]
    = [Some [x62]; Some [x63]].
Proof. by_evaluation. Qed.

End Scenarios.

(** ** Where the code departs from the specification *)

Section Departures.

Lemma empty_heap_wf : heap_wf empty_heap.
Proof. intros b [sz Hb]. simpl in Hb. by rewrite lookup_empty in Hb. Qed.

Lemma T_int32_ok : CType_ok T_int32 ∧ Push_compiles T_int32.
Proof.
  split; [split; [unfold T_int32; simpl; lia|exists 2; split; [lia|reflexivity]]|].
  unfold Push_compiles, ChunkAlignment. simpl. lia.
Qed.

Lemma T_int64_ok : CType_ok T_int64 ∧ Push_compiles T_int64.
Proof.
  split; [split; [unfold T_int64; simpl; lia|exists 3; split; [lia|reflexivity]]|].
  unfold Push_compiles, ChunkAlignment. simpl. lia.
Qed.

Lemma T_Blob64_ok : CType_ok T_Blob64 ∧ Push_compiles T_Blob64.
Proof.
  split; [split; [unfold T_Blob64; simpl; lia|exists 6; split; [lia|reflexivity]]|].
  unfold Push_compiles, ChunkAlignment. simpl. lia.
Qed.

Lemma T_Huge_ok : CType_ok T_Huge ∧ Push_compiles T_Huge.
Proof.
  split; [split; [unfold T_Huge; simpl; lia|exists 0; split; [lia|reflexivity]]|].
  unfold Push_compiles, ChunkAlignment. simpl. lia.
Qed.

Lemma w_new64_reachable : reachable w_new64.
Proof. apply reach_Construct; [apply empty_heap_wf|done]. Qed.

(** A push within its contract, as a step between reachable worlds. *)
Lemma run_from_Push_reachable w T v :
  reachable w → CType_ok T → Push_compiles T → sizeof T ≤ ChunkSize (snd w) →
  reachable (run_from w (Push T v)).
Proof.
  intros Hr Hok Hc Hfit. destruct w as [h s].
  destruct (Push_defined T v h s (reachable_wf _ Hr)) as [w' HP].
  { destruct Hok as [? _]. simpl in Hfit. lia. }
  unfold run_from. rewrite HP. by eapply reach_Push.
Qed.

Lemma w_two_blocks_reachable : reachable w_two_blocks.
Proof.
  apply run_from_Push_reachable; [|apply T_int32_ok..|vm_compute; discriminate].
  apply run_from_Push_reachable; [|apply T_Blob64_ok..|vm_compute; discriminate].
  apply w_new64_reachable.
Qed.

Lemma w_huge_full_reachable : reachable w_huge_full.
Proof.
  apply run_from_Push_reachable; [|apply T_Huge_ok..|vm_compute; discriminate].
  apply reach_Construct; [apply empty_heap_wf|done].
Qed.

(** After a move, an allocation on the source indexes its pool with the
    stale block index: with an index of at least 1 the access is outside
    the pool, whatever is requested. *)
Lemma moved_from_Allocate_undefined size align h s :
  1 ≤ ChunkHead s < 2 ^ 32 - 1 →
  Allocate size align (h, snd (MoveConstruct s)) = None.
Proof.
  intros Hch. rewrite Allocate_unfold.
  unfold alloc_state, alloc_pool, alloc_index, alloc_offset, alloc_roll. simpl.
  rewrite (u32_small (ChunkHead s + 1)) by lia.
  destruct (bool_decide _); simpl.
  - rewrite bool_decide_eq_true_2 by lia. unfold vector_at. simpl.
    rewrite decide_True by lia.
    rewrite lookup_ge_None_2 by (simpl; lia). done.
  - unfold vector_at. simpl. rewrite decide_True by lia.
    rewrite lookup_ge_None_2 by (simpl; lia). done.
Qed.

(** With the block index at 0 the source of a move is a usable empty
    container. *)
Lemma moved_from_usable h s :
  pool_wf (h, s) → ChunkHead s = 0 → pool_wf (h, snd (MoveConstruct s)).
Proof.
  intros (Hcs & Hhd & Hch & Hidx & Hwf & _) Hz. unfold pool_wf, pool_ok. simpl in *.
  repeat split; try done; try lia; [by right|apply NoDup_nil_2].
Qed.

(** C1. (the code departs) A container of 64-byte blocks receives a
    64-byte value and a 4-byte value, which puts its active block index
    at 1, and is then moved from. The source keeps index 1 and offset 4
    with an empty pool. A push of a 4-byte value on it takes the base
    block path, which leaves a pool of one block, and then reads the
    pool at index 1, outside the pool: undefined behaviour, for this
    request and for one that rolls over. *)
Theorem C1_moved_from_push_out_of_bounds :
  reachable w_two_blocks ∧
  let h := fst w_two_blocks in
  let InOther := snd (MoveConstruct (snd w_two_blocks)) in
  Chunks InOther = [] ∧ ChunkHead InOther = 1 ∧ Head InOther = 4 ∧
  snd (alloc_pool 4 4 h InOther) = [Ptr 2%nat 0] ∧
  alloc_index 4 4 InOther = 1 ∧
  Allocate 4 4 (h, InOther) = None ∧
  Push T_int32 (filled x03) (h, InOther) = None ∧
  Allocate 64 64 (h, InOther) = None.
Proof.
  split; [apply w_two_blocks_reachable|].
  by_evaluation.
Qed.

(** C2. (the code departs) A container with [ChunkSize] 4294967295 whose
    first block is full, after the push of one value of that size. A
    request of 64 bytes aligned to 64 is within the contract. The
    specified algorithm rounds the offset up to 4294967296, finds that
    the request does not fit and serves it from a second block. The code
    truncates the rounded offset to 32 bits, gets 0, and serves the
    request at offset 0 of the first block, which is in use. *)
Theorem C2_Allocate_offset_wraps :
  reachable w_huge_full ∧
  ChunkSize (snd w_huge_full) = 4294967295 ∧
  Head (snd w_huge_full) = 4294967295 ∧
  64 ≤ ChunkSize (snd w_huge_full) ∧
  align_up 4294967295 64 = 4294967296 ∧
  Details.Align u32 4294967295 64 = 0 ∧
  observe (Allocate 64 64 w_huge_full) = Some (Ptr 0%nat 0, [Ptr 0%nat 0], 64, 0) ∧
  observe (Allocate_spec 64 64 w_huge_full)
    = Some (Ptr 1%nat 0, [Ptr 0%nat 0; Ptr 1%nat 0], 64, 1).
Proof.
  split; [apply w_huge_full_reachable|].
  by_evaluation.
Qed.


Lemma fingerprint_collision :
  T_coll_a ≠ T_coll_b ∧ TTypeIndex T_coll_a = TTypeIndex T_coll_b.
Proof. split; [discriminate|vm_compute; reflexivity]. Qed.

(** The consequence of the wrapped offset of C2: the 64-byte value pushed
    next is filed at the address of the first value, and the first value,
    pushed with all bytes 01, now reads 02 there. *)
Lemma offset_wrap_overwrites_value :
  TypeMap (snd w_huge_aliased) !! TTypeIndex T_Huge = Some [Ptr 0%nat 0] ∧
  TypeMap (snd w_huge_aliased) !! TTypeIndex T_Blob64 = Some [Ptr 0%nat 0] ∧
  mem (fst w_huge_aliased) 0%nat 0 = x02.
Proof. by_evaluation. Qed.

(** The claim of C3 as written fails in two ways the design accepts.
    A type larger than a block: an 8-byte value pushed on a new container
    of 4-byte blocks is written past the end of its block, so the frame
    has no defined outcome. Two types with one fingerprint: after a push
    of each, the view of the first yields two elements where one value
    was pushed as that type. *)
Lemma C3_counterexample :
  fresh_frame (empty_heap, Construct 4) ∧
  CType_ok T_int64 ∧ alignof T_int64 ≤ 64 ∧
  ¬ roundtrip_holds (empty_heap, Construct 4) [(T_int64, filled x01)] T_int64 ∧
  fresh_frame w_new64 ∧
  T_coll_a ≠ T_coll_b ∧
  ¬ roundtrip_holds w_new64 [(T_coll_a, int32_le 1); (T_coll_b, int32_le 2)] T_coll_a.
Proof.
  split.
  { left. exists empty_heap, 4. split; [apply empty_heap_wf|done]. }
  split; [apply T_int64_ok|]. split; [done|]. split.
  { intros (w' & HP & _). vm_compute in HP. discriminate. }
  split.
  { left. exists empty_heap, 64. split; [apply empty_heap_wf|done]. }
  split; [discriminate|].
  intros (w' & HP & HY).
  assert (Hvec : ∃ p q, TypeMap (snd w') !! TTypeIndex T_coll_a = Some [p; q]).
  { simpl in HP. unfold bind, ret in HP.
    destruct (Push T_coll_a (int32_le 1) w_new64) as [[[] w1]|] eqn:H1; [|done].
    destruct (Push T_coll_b (int32_le 2) w1) as [[[] w2]|] eqn:H2; [|done].
    inversion HP; subst w2; clear HP.
    destruct (Push_TypeMap _ _ _ _ H1) as [p Hp].
    destruct (Push_TypeMap _ _ _ _ H2) as [q Hq].
    exists p, q. rewrite Hq, Hp.
    rewrite <- (proj2 fingerprint_collision). by rewrite !lookup_insert_eq. }
  destruct Hvec as (p & q & Hvec).
  apply (Query_yields_length _ _ _ _ HY) in Hvec.
  vm_compute in Hvec. discriminate.
Qed.

(** The claim of C6 as written fails for two types with one fingerprint:
    on a new container, after one push of the second type and none of the
    first, the view of the first type has one element. *)
Lemma C6_counterexample :
  fresh_frame w_new64 ∧
  (T_coll_a ∉ map fst [(T_coll_b, int32_le 7)]) ∧
  ∃ w', PushAll [(T_coll_b, int32_le 7)] w_new64 = Some (tt, w') ∧
        fst <$> Query T_coll_a 1 w' = Some [Ptr 0%nat 0] ∧
        fst <$> Data T_coll_a w'
          = Some (mkRange (It (TTypeIndex T_coll_a) 0) (It (TTypeIndex T_coll_a) 1)).
Proof.
  split.
  { left. exists empty_heap, 64. split; [apply empty_heap_wf|done]. }
  split.
  { intros [H|H]%elem_of_cons; [discriminate|by apply elem_of_nil in H]. }
  eexists. split; [vm_compute; reflexivity|].
  by_evaluation.
Qed.

End Departures.

(** ** The theorems at concrete inputs *)

Section Witnesses.

Lemma T_char_ok : CType_ok T_char ∧ Push_compiles T_char.
Proof.
  split; [split; [unfold T_char; simpl; lia|exists 0; split; [lia|reflexivity]]|].
  unfold Push_compiles, ChunkAlignment. simpl. lia.
Qed.

Lemma w_char_reachable : reachable (fst w_char, snd w_char).
Proof.
  rewrite <- surjective_pairing.
  apply run_from_Push_reachable; [|apply T_char_ok..|vm_compute; discriminate].
  apply w_new64_reachable.
Qed.

Lemma fresh_w_new64 : fresh_frame w_new64.
Proof. left. exists empty_heap, 64. split; [apply empty_heap_wf|done]. Qed.

Lemma C3_witness :
  fresh_frame w_new64 ∧
  Forall (λ op, CType_ok (fst op) ∧ alignof (fst op) ≤ 64 ∧
                sizeof (fst op) ≤ ChunkSize (snd w_new64)) sample_frame ∧
  Forall (λ op, TTypeIndex (fst op) = TTypeIndex T_int32 → fst op = T_int32)
         sample_frame ∧
  ChunkSize (snd w_new64) ≤ 2 ^ 32 - 64 ∧
  Z.of_nat (length sample_frame) < 2 ^ 32 ∧
  roundtrip_holds w_new64 sample_frame T_int32.
Proof.
  assert (H1 : fresh_frame w_new64) by apply fresh_w_new64.
  assert (H2 : Forall (λ op, CType_ok (fst op) ∧ alignof (fst op) ≤ 64 ∧
                sizeof (fst op) ≤ ChunkSize (snd w_new64)) sample_frame).
  { repeat constructor; try apply T_int32_ok; try apply T_Blob64_ok;
      vm_compute; discriminate. }
  assert (H3 : Forall (λ op, TTypeIndex (fst op) = TTypeIndex T_int32 →
                             fst op = T_int32) sample_frame).
  { repeat constructor; simpl; intros H; try reflexivity.
    vm_compute in H. discriminate. }
  assert (H4 : ChunkSize (snd w_new64) ≤ 2 ^ 32 - 64) by (vm_compute; discriminate).
  assert (H5 : Z.of_nat (length sample_frame) < 2 ^ 32) by (vm_compute; reflexivity).
  split_conj; try assumption.
  exact (C3_roundtrip_in_push_order T_int32 sample_frame w_new64 H1 H2 H3 H4 H5).
Defined.

Lemma C4_witness :
  reachable (fst w_two_blocks, snd w_two_blocks) ∧
  ∃ h' s', Clear 1 (fst w_two_blocks, snd w_two_blocks) = Some (tt, (h', s')) ∧
           Head s' = 0 ∧ ChunkHead s' = 0 ∧ TypeMap s' = ∅ ∧
           length (Chunks s') = 1%nat.
Proof.
  assert (H1 : reachable (fst w_two_blocks, snd w_two_blocks)).
  { rewrite <- surjective_pairing. apply w_two_blocks_reachable. }
  split; [assumption|].
  destruct (C4_Clear_resets_and_resizes 1 _ _ H1)
    as (h' & s' & HC & Hhd & Hch & Htm & _ & Hlen & _).
  exists h', s'. split_conj; assumption.
Defined.

Lemma C5_witness :
  (∀ b : block, (64 * Z.of_nat b) mod 64 = 0) ∧
  reachable (fst w_char, snd w_char) ∧
  CType_ok T_int32 ∧ alignof T_int32 ≤ 64 ∧
  sizeof T_int32 ≤ ChunkSize (snd w_char) ∧
  ∃ w' ptrs p,
    Push T_int32 (filled x0a) (fst w_char, snd w_char) = Some (tt, w') ∧
    TypeMap (snd w') !! TTypeIndex T_int32 = Some (ptrs ++ [p]) ∧
    holds_value (fst w') T_int32 p (filled x0a) ∧
    address (λ b, 64 * Z.of_nat b) p mod alignof T_int32 = 0.
Proof.
  assert (H1 : ∀ b : block, (64 * Z.of_nat b) mod 64 = 0).
  { intros b. rewrite Z.mul_comm. apply Z.mod_mul. lia. }
  assert (H2 : reachable (fst w_char, snd w_char)) by apply w_char_reachable.
  assert (H3 : CType_ok T_int32) by apply T_int32_ok.
  assert (H4 : alignof T_int32 ≤ 64) by (vm_compute; discriminate).
  assert (H5 : sizeof T_int32 ≤ ChunkSize (snd w_char)) by (vm_compute; discriminate).
  split_conj; try assumption.
  exact (C5_pushed_address_is_aligned _ H1 T_int32 (filled x0a) _ _ H2 H3 H4 H5).
Defined.

Lemma C6_witness :
  fresh_frame w_new64 ∧
  PushAll sample_frame w_new64 = Some (tt, run_from w_new64 (PushAll sample_frame)) ∧
  Forall (λ op, TTypeIndex (fst op) ≠ TTypeIndex T_int64) sample_frame ∧
  ∀ fuel, Query T_int64 fuel (run_from w_new64 (PushAll sample_frame))
          = Some ([], run_from w_new64 (PushAll sample_frame)).
Proof.
  assert (H1 : fresh_frame w_new64) by apply fresh_w_new64.
  assert (H2 : PushAll sample_frame w_new64
               = Some (tt, run_from w_new64 (PushAll sample_frame)))
    by (vm_compute; reflexivity).
  assert (H3 : Forall (λ op, TTypeIndex (fst op) ≠ TTypeIndex T_int64) sample_frame).
  { repeat constructor; simpl; intros H; vm_compute in H; discriminate. }
  split_conj; try assumption.
  destruct (C6_query_of_unpushed_type_is_empty T_int64 sample_frame _ _ H1 H2 H3)
    as (_ & r & _ & _ & HQ).
  exact HQ.
Defined.

Lemma C9_witness :
  reachable (fst w_char, snd w_char) ∧
  is_alignment 8 ∧ 8 ≤ 64 ∧ 0 ≤ 56 ∧
  align_up (Head (snd w_char)) 8 + 56 = ChunkSize (snd w_char) ∧
  ∃ b h' s',
    Allocate 56 8 (fst w_char, snd w_char)
      = Some (Ptr b (align_up (Head (snd w_char)) 8), (h', s')) ∧
    ChunkHead s' = ChunkHead (snd w_char) ∧ Head s' = ChunkSize (snd w_char).
Proof.
  assert (H1 : reachable (fst w_char, snd w_char)) by apply w_char_reachable.
  assert (H2 : is_alignment 8) by (exists 3; split; [lia|reflexivity]).
  assert (H3 : 8 ≤ 64) by lia.
  assert (H4 : 0 ≤ 56) by lia.
  assert (H5 : align_up (Head (snd w_char)) 8 + 56 = ChunkSize (snd w_char))
    by (vm_compute; reflexivity).
  split_conj; try assumption.
  destruct (C9_exact_fit_stays_in_block 56 8 _ _ H1 H2 H3 H4 H5)
    as (b & h' & s' & HA & Hch & Hhd & _).
  exists b, h', s'. split_conj; assumption.
Defined.

End Witnesses.

(** * Further properties of the code *)

(** ** [Details::Align] for every result type *)

Section AlignFacts.

Lemma pow2_bounds k n : 0 ≤ k < n → 0 < 2 ^ k ∧ 2 * 2 ^ k ≤ 2 ^ n.
Proof.
  intros Hk. split; [apply Z.pow_pos_nonneg; lia|].
  replace (2 * 2 ^ k) with (2 ^ (k + 1)) by (rewrite Z.pow_add_r; lia).
  apply Z.pow_le_mono_r; lia.
Qed.

(** The mask of the source clears the low [k] bits, for every power of
    two that fits 64 bits. *)
Lemma land_mask64_wide y k :
  0 ≤ k < 64 → 0 ≤ y < 2 ^ 64 →
  Z.land y (u64 (Z.lnot (u64 (2 ^ k - 1)))) = y / 2 ^ k * 2 ^ k.
Proof.
  intros Hk Hy. pose proof (pow2_bounds k 64 Hk) as [Hp Hq].
  rewrite (u64_small (2 ^ k - 1)) by lia.
  unfold u64. rewrite <- (Z.land_ones _ 64) by lia.
  rewrite (Z.land_comm (Z.lnot _)), Z.land_assoc.
  rewrite (Z.land_ones y 64), (Z.mod_small y) by lia.
  rewrite <- Z.ldiff_land.
  replace (2 ^ k - 1) with (Z.ones k) by (rewrite Z.ones_equiv; lia).
  rewrite Z.ldiff_ones_r by lia.
  rewrite Z.shiftl_mul_pow2, Z.shiftr_div_pow2 by lia. done.
Qed.

Lemma u64_sum_pred x a :
  0 ≤ x → 0 < a → x + a ≤ 2 ^ 64 → u64 (u64 (u64 x + a) - 1) = x + a - 1.
Proof.
  intros Hx Ha Hxa. rewrite (u64_small x) by lia.
  unfold u64. rewrite Zminus_mod_idemp_l. apply Z.mod_small. lia.
Qed.

(** The least multiple of [a] at or above [x]. *)
Lemma align_up_least x a m : 0 < a → (a | m) → x ≤ m → align_up x a ≤ m.
Proof.
  intros Ha [q ->] Hm. pose proof (align_up_bounds x a Ha) as Hb.
  destruct (align_up_divide x a) as [r Hr]. rewrite Hr in *.
  assert (r < q + 1) by nia. nia.
Qed.

(** X1. For every result type (given by its truncation) and every power
    of two [2^k] below 2^64, when [Val + Alignment] does not exceed 2^64
    the function returns the truncation of the least multiple of the
    alignment at or above [Val]; for the 32-bit instance used on [Head]
    nothing is truncated when [Val + Alignment] does not exceed 2^32,
    and aligning an aligned value returns it. *)
Theorem X1_Align_rounds_up (castT : Z → Z) (x k : Z) :
  0 ≤ k < 64 → 0 ≤ x → x + 2 ^ k ≤ 2 ^ 64 →
  ∃ r, Details.Align castT x (2 ^ k) = castT r ∧
       (2 ^ k | r) ∧ x ≤ r < x + 2 ^ k ∧
       (∀ m, (2 ^ k | m) → x ≤ m → r ≤ m) ∧
       (x + 2 ^ k ≤ 2 ^ 32 →
          Details.Align u32 x (2 ^ k) = r ∧ Details.Align u32 r (2 ^ k) = r).
Proof.
  intros Hk Hx Hxa. pose proof (pow2_bounds k 64 Hk) as [Hp Hq].
  pose proof (align_up_bounds x (2 ^ k) Hp) as Hb.
  assert (HA : ∀ c y, 0 ≤ y → y + 2 ^ k ≤ 2 ^ 64 →
            Details.Align c y (2 ^ k) = c (align_up y (2 ^ k))).
  { intros c y Hy Hya. unfold Details.Align, align_up.
    rewrite u64_sum_pred by lia. rewrite land_mask64_wide by lia. done. }
  exists (align_up x (2 ^ k)). split; [by apply HA|].
  split; [apply align_up_divide|]. split; [done|].
  split; [intros m Hm Hxm; by apply align_up_least|].
  intros H32. rewrite !HA by lia.
  rewrite (align_up_aligned (align_up x (2 ^ k))) by (done || apply align_up_divide).
  split; apply u32_small; lia.
Qed.

End AlignFacts.

(** ** The hash as a function of the signature string *)

Section HashFacts.

Lemma string_bytes_app (a b : string) :
  string_bytes (a +:+ b) = string_bytes a ++ string_bytes b.
Proof.
  unfold string_bytes. rewrite <- map_app. f_equal.
  induction a as [|c a IH]; simpl; [done|]. by rewrite IH.
Qed.

Lemma ComputeHash_fnv1a (s : string) :
  Details.ComputeHash s = Some (fnv1a (string_bytes s)).
Proof.
  unfold Details.ComputeHash. rewrite ComputeHash_loop_fold by lia.
  by rewrite drop_0.
Qed.

Lemma u8_of_char_range c : 0 ≤ u8_of_char c < 256.
Proof.
  unfold u8_of_char. pose proof (nat_ascii_bounded c). lia.
Qed.

Lemma u8_of_char_inj c1 c2 : u8_of_char c1 = u8_of_char c2 → c1 = c2.
Proof.
  unfold u8_of_char. intros H%Nat2Z.inj.
  rewrite <- (ascii_nat_embedding c1), <- (ascii_nat_embedding c2). by rewrite H.
Qed.

Lemma lxor_range h b : 0 ≤ h < 2 ^ 64 → 0 ≤ b < 2 ^ 64 → 0 ≤ Z.lxor h b < 2 ^ 64.
Proof.
  intros Hh Hb. assert (H0 : 0 ≤ Z.lxor h b) by (apply Z.lxor_nonneg; lia).
  split; [done|].
  destruct (decide (Z.lxor h b = 0)) as [->|Hne]; [lia|].
  apply Z.log2_lt_pow2; [lia|].
  pose proof (Z.log2_lxor h b ltac:(lia) ltac:(lia)) as Hl.
  assert (Z.log2 h < 64).
  { destruct (decide (h = 0)) as [->|?]; [done|]. apply Z.log2_lt_pow2; lia. }
  assert (Z.log2 b < 64).
  { destruct (decide (b = 0)) as [->|?]; [done|]. apply Z.log2_lt_pow2; lia. }
  lia.
Qed.

(** Multiplying by the prime is invertible modulo 2^64. *)
Lemma mul_Prime_inj x y :
  0 ≤ x < 2 ^ 64 → 0 ≤ y < 2 ^ 64 →
  (x * 0x100000001B3) mod 2 ^ 64 = (y * 0x100000001B3) mod 2 ^ 64 → x = y.
Proof.
  intros Hx Hy Heq.
  assert (Hinv : ∀ z, 0 ≤ z < 2 ^ 64 →
            ((z * 0x100000001B3) mod 2 ^ 64 * Prime_inverse) mod 2 ^ 64 = z).
  { intros z Hz. rewrite Z.mul_mod_idemp_l by lia.
    rewrite <- Z.mul_assoc, <- Z.mul_mod_idemp_r by lia.
    change ((0x100000001B3 * Prime_inverse) mod 2 ^ 64) with 1.
    rewrite Z.mul_1_r. apply Z.mod_small. lia. }
  rewrite <- (Hinv x Hx), <- (Hinv y Hy). by rewrite Heq.
Qed.

Lemma lxor_cancel_l h a b : Z.lxor h a = Z.lxor h b → a = b.
Proof.
  intros H. apply (f_equal (Z.lxor h)) in H.
  by rewrite <- !Z.lxor_assoc, Z.lxor_nilpotent, !Z.lxor_0_l in H.
Qed.

Lemma lxor_cancel_r h1 h2 b : Z.lxor h1 b = Z.lxor h2 b → h1 = h2.
Proof. rewrite !(Z.lxor_comm _ b). apply lxor_cancel_l. Qed.

Lemma fnv1a_step_inj_state h1 h2 b :
  0 ≤ h1 < 2 ^ 64 → 0 ≤ h2 < 2 ^ 64 → 0 ≤ b < 256 →
  fnv1a_step h1 b = fnv1a_step h2 b → h1 = h2.
Proof.
  intros H1 H2 Hb Heq. unfold fnv1a_step in Heq.
  apply mul_Prime_inj in Heq; [|apply lxor_range; lia..].
  by eapply lxor_cancel_r.
Qed.

Lemma fnv1a_step_inj_byte h b1 b2 :
  0 ≤ h < 2 ^ 64 → 0 ≤ b1 < 256 → 0 ≤ b2 < 256 →
  fnv1a_step h b1 = fnv1a_step h b2 → b1 = b2.
Proof.
  intros Hh H1 H2 Heq. unfold fnv1a_step in Heq.
  apply mul_Prime_inj in Heq; [|apply lxor_range; lia..].
  by eapply lxor_cancel_l.
Qed.

Lemma fold_fnv1a_range l : ∀ h, 0 ≤ h < 2 ^ 64 →
  0 ≤ fold_left fnv1a_step l h < 2 ^ 64.
Proof.
  induction l as [|b l IH]; intros h Hh; simpl; [done|].
  apply IH, fnv1a_step_range.
Qed.

(** Folding the same bytes into two states keeps them apart. *)
Lemma fold_fnv1a_inj l : ∀ h1 h2,
  Forall (λ b, 0 ≤ b < 256) l →
  0 ≤ h1 < 2 ^ 64 → 0 ≤ h2 < 2 ^ 64 →
  fold_left fnv1a_step l h1 = fold_left fnv1a_step l h2 → h1 = h2.
Proof.
  induction l as [|b l IH]; intros h1 h2 Hl H1 H2 Heq; simpl in *; [done|].
  apply Forall_cons in Hl as [Hb Hl].
  apply IH in Heq; [|done|apply fnv1a_step_range..].
  by eapply fnv1a_step_inj_state.
Qed.

Lemma string_bytes_range s : Forall (λ b, 0 ≤ b < 256) (string_bytes s).
Proof.
  unfold string_bytes. apply Forall_fmap, Forall_forall.
  intros c _. apply u8_of_char_range.
Qed.

(** X2. Two signature strings that differ in exactly one character never
    have the same hash: the types they belong to have different
    fingerprints. *)
Theorem X2_one_character_changes_the_hash (p q : string) (c1 c2 : ascii) :
  c1 ≠ c2 →
  Details.ComputeHash (p +:+ String c1 q) ≠ Details.ComputeHash (p +:+ String c2 q) ∧
  ∀ T U, FUNCSIG T = p +:+ String c1 q → FUNCSIG U = p +:+ String c2 q →
         TTypeIndex T ≠ TTypeIndex U.
Proof.
  intros Hne.
  assert (H : fnv1a (string_bytes (p +:+ String c1 q))
              ≠ fnv1a (string_bytes (p +:+ String c2 q))).
  { rewrite !string_bytes_app. unfold fnv1a. rewrite !fold_left_app.
    change (string_bytes (String ?c q)) with (u8_of_char c :: string_bytes q).
    simpl. intros Heq.
    apply fold_fnv1a_inj in Heq;
      [|apply string_bytes_range|apply fnv1a_step_range..].
    apply fnv1a_step_inj_byte in Heq;
      [|apply fold_fnv1a_range; lia|apply u8_of_char_range..].
    by apply Hne, u8_of_char_inj. }
  split.
  - rewrite !ComputeHash_fnv1a. by intros [= ?].
  - intros T U HT HU. unfold TTypeIndex.
    rewrite HT, HU, !ComputeHash_fnv1a. done.
Qed.

(** X3. A common suffix neither creates nor removes a collision: two
    strings followed by the same text have the same hash exactly when
    the two strings have. *)
Theorem X3_common_suffix (a b c : string) :
  Details.ComputeHash (a +:+ c) = Details.ComputeHash (b +:+ c) ↔
  Details.ComputeHash a = Details.ComputeHash b.
Proof.
  rewrite !ComputeHash_fnv1a, !string_bytes_app. unfold fnv1a.
  rewrite !fold_left_app. split; intros [= Heq]; f_equal.
  - eapply fold_fnv1a_inj; [apply string_bytes_range| | |exact Heq];
      apply fold_fnv1a_range; lia.
  - by rewrite Heq.
Qed.

End HashFacts.

(** ** What every reachable container satisfies *)

Section PoolFacts.

(** Aligning offset zero gives zero, whatever the alignment is. *)
Lemma Align_zero castT a : Details.Align castT 0 a = castT 0.
Proof.
  unfold Details.Align.
  assert (H : u64 (u64 (u64 0 + a) - 1) = u64 (a - 1)).
  { unfold u64. rewrite Z.mod_0_l by lia. rewrite Z.add_0_l.
    by rewrite Zminus_mod_idemp_l. }
  rewrite H. generalize (u64 (a - 1)). intros y. f_equal.
  unfold u64. rewrite <- Z.land_ones by lia.
  by rewrite Z.land_assoc, Z.land_lnot_diag, Z.land_0_l.
Qed.

Lemma alloc_roll_from_zero size align s :
  Head s = 0 → 0 ≤ size ≤ ChunkSize s → ChunkSize s < 2 ^ 32 →
  alloc_roll size align s = false.
Proof.
  intros HH Hsz Hcs. unfold alloc_roll. rewrite HH, Align_zero.
  rewrite (u32_small 0), u64_small by lia. apply bool_decide_eq_false. lia.
Qed.

Lemma grown_false sz hc : grown false sz hc = hc.
Proof. done. Qed.

(** No block is acquired when the pool is not empty and the request
    either fits the active block or finds a spare block ahead. *)
Lemma alloc_pool_same size align h s :
  0 ≤ ChunkHead s →
  Chunks s ≠ [] →
  alloc_roll size align s = false ∨
    ChunkHead s + 1 < Z.of_nat (length (Chunks s)) →
  alloc_pool size align h s = (h, Chunks s).
Proof.
  intros HCH Hne Hcase. unfold alloc_pool.
  rewrite (bool_decide_eq_false_2 (length (Chunks s) = 0%nat))
    by (destruct (Chunks s); done).
  rewrite grown_false. cbn [snd].
  destruct Hcase as [->|Hlt]; [done|].
  unfold alloc_index. destruct (alloc_roll size align s); [|done].
  rewrite bool_decide_eq_false_2; [done|].
  pose proof (u32_succ_le (ChunkHead s) HCH). simpl. lia.
Qed.

Lemma reachable_cursor w :
  reachable w →
  Head (snd w) ≤ ChunkSize (snd w) ∧
  (Chunks (snd w) = [] → Head (snd w) = 0 ∧ TypeMap (snd w) = ∅) ∧
  (∀ key vec, TypeMap (snd w) !! key = Some vec →
     vec ≠ [] ∧
     ∀ p, p ∈ vec → ∃ b o, p = Ptr b o ∧ Ptr b 0 ∈ Chunks (snd w) ∧
                           0 ≤ o < ChunkSize (snd w)).
Proof.
  induction 1 as [h cs Hh Hcs|[h s] w' T v Hr IH HT HC HP|[h s] w' k Hr IH HC|h s Hr IH].
  - simpl. split; [lia|]. split; [done|]. intros key vec Hk.
    by rewrite lookup_empty in Hk.
  - pose proof (reachable_wf _ Hr) as Hwf.
    destruct (Push_inv T v h s w' Hwf HP) as (b & h2 & Hidx & Hlive & Hst & -> & Hwf').
    apply store_inv in Hst as (b' & o' & sz & [= <- <-] & Hl & Ho & Hosz & _).
    rewrite Hlive in Hl. injection Hl as <-.
    destruct HT as [[Hs0 _] _]. destruct Hwf as (Hcs & _). simpl in Hcs.
    simpl in IH. destruct IH as (IH1 & IH2 & IH3).
    cbn [snd set_TypeMap alloc_state TypeMap Chunks ChunkSize Head ChunkHead].
    split; [rewrite u64_small, u32_small by lia; lia|].
    split; [intros Hnil; by rewrite Hnil in Hidx|].
    intros key vec Hk.
    assert (Hmono : ∀ q, q ∈ Chunks s →
              q ∈ snd (alloc_pool (sizeof T) (alignof T) h s)).
    { intros q Hq. destruct (alloc_pool_prefix (sizeof T) (alignof T) h s) as [l ->].
      apply elem_of_app. by left. }
    destruct (decide (key = TTypeIndex T)) as [->|Hkey].
    + rewrite lookup_insert_eq in Hk. injection Hk as <-.
      split; [by destruct (default [] _)|].
      intros p [Hp|Hp%list_elem_of_singleton]%elem_of_app.
      * destruct (TypeMap s !! TTypeIndex T) as [old|] eqn:Hold;
          [|by apply elem_of_nil in Hp].
        destruct (IH3 _ _ Hold) as [_ Hin].
        destruct (Hin p Hp) as (b1 & o1 & -> & Hb1 & Ho1).
        exists b1, o1. auto.
      * subst p. exists b, (alloc_offset (sizeof T) (alignof T) s).
        split; [done|]. split; [by eapply list_elem_of_lookup_2|lia].
    + rewrite lookup_insert_ne in Hk by done.
      destruct (IH3 _ _ Hk) as [Hne Hin]. split; [done|].
      intros p Hp. destruct (Hin p Hp) as (b1 & o1 & -> & Hb1 & Ho1).
      exists b1, o1. auto.
  - pose proof (reachable_wf _ Hr) as Hwf.
    destruct (Clear_spec k h s Hwf) as (h' & c' & HC' & Hwf' & _).
    rewrite HC' in HC. injection HC as <-.
    destruct Hwf as (Hcs & _). simpl in *. split; [lia|]. split; [done|].
    intros key vec Hk. by rewrite lookup_empty in Hk.
  - simpl in *. done.
Qed.

(** X4. What holds of every container obtained through the public
    interface: the offset in the active block never exceeds the block
    size, an empty pool goes with offset zero, active index zero and an
    empty registry, a non-empty pool contains the active index, and the
    pool consists of distinct live blocks of [ChunkSize] bytes each. *)
Theorem X4_reachable_pool_invariant (h : Heap) (s : FFrameData) :
  reachable (h, s) →
  0 ≤ Head s ≤ ChunkSize s ∧ ChunkSize s < 2 ^ 32 ∧
  (Chunks s = [] → Head s = 0 ∧ ChunkHead s = 0 ∧ TypeMap s = ∅) ∧
  (Chunks s ≠ [] → 0 ≤ ChunkHead s < Z.of_nat (length (Chunks s))) ∧
  NoDup (Chunks s) ∧
  ∀ p, p ∈ Chunks s →
       ∃ b, p = Ptr b 0 ∧ live h !! b = Some (ChunkSize s) ∧ (b < next_block h)%nat.
Proof.
  intros Hr. pose proof (reachable_wf _ Hr) as (Hcs & HH & HCH & Hidx & Hhw & Hall & Hnd).
  destruct (reachable_cursor _ Hr) as (Hle & Hnil & _). simpl in *.
  split; [lia|]. split; [lia|].
  split. { intros Hn. destruct (Hnil Hn) as [-> ->].
           destruct Hidx as [Hlt|[_ ->]]; [|done]. rewrite Hn in Hlt. simpl in Hlt. lia. }
  split. { intros Hne. destruct Hidx as [?|[? _]]; [lia|done]. }
  split; [done|].
  intros p Hp. rewrite Forall_forall in Hall. destruct (Hall p Hp) as (b & -> & Hl).
  exists b. split; [done|]. split; [done|]. apply Hhw. by exists (ChunkSize s).
Qed.

(** X5. In a reachable container every entry of the registry is a
    non-empty list, and every address recorded in it points into a live
    block of the pool, at an offset inside the block. *)
Theorem X5_registered_addresses_in_pool
    (h : Heap) (s : FFrameData) (key : Z) (vec : list pointer) :
  reachable (h, s) → TypeMap s !! key = Some vec →
  vec ≠ [] ∧
  ∀ p, p ∈ vec →
       ∃ b o, p = Ptr b o ∧ Ptr b 0 ∈ Chunks s ∧
              live h !! b = Some (ChunkSize s) ∧ 0 ≤ o < ChunkSize s.
Proof.
  intros Hr Hk. destruct (reachable_cursor _ Hr) as (_ & _ & Hreg).
  destruct (Hreg key vec Hk) as [Hne Hin]. split; [done|].
  intros p Hp. destruct (Hin p Hp) as (b & o & -> & Hb & Ho).
  exists b, o. repeat (split; [done|]). split; [|done].
  pose proof (reachable_wf _ Hr) as (_ & _ & _ & _ & _ & Hall & _).
  simpl in *. rewrite Forall_forall in Hall.
  destruct (Hall _ Hb) as (b' & [= <-] & Hl). done.
Qed.

(** X6. On a reachable container [Allocate] of a size that fits a block
    is defined; the address it returns lies in a live block of the pool
    with the whole request inside the block, the offset of the container
    ends just past the request, the pool keeps its blocks and gains at
    most one, and neither the registry nor any byte of memory changes. *)
Theorem X6_Allocate_in_bounds (size align : Z) (h : Heap) (s : FFrameData) :
  reachable (h, s) → 0 ≤ size ≤ ChunkSize s →
  ∃ b o h' s',
    Allocate size align (h, s) = Some (Ptr b o, (h', s')) ∧
    Ptr b 0 ∈ Chunks s' ∧ live h' !! b = Some (ChunkSize s) ∧
    0 ≤ o ∧ o + size ≤ ChunkSize s ∧ Head s' = o + size ∧
    Chunks s `prefix_of` Chunks s' ∧
    (length (Chunks s') ≤ length (Chunks s) + 1)%nat ∧
    TypeMap s' = TypeMap s ∧ ChunkSize s' = ChunkSize s ∧
    mem h' = mem h ∧ pool_wf (h', s').
Proof.
  intros Hr Hsz. pose proof (reachable_wf _ Hr) as Hwf.
  destruct (Allocate_wf size align h s Hwf) as (b & HA & Hidx & Hlive & Hwf').
  pose proof Hwf as (Hcs & _). simpl in Hcs.
  destruct (alloc_offset_fits size align s Hcs Hsz) as [Ho1 Ho2].
  destruct (reachable_cursor _ Hr) as (_ & Hnil & _). simpl in Hnil.
  exists b, (alloc_offset size align s), (fst (alloc_pool size align h s)),
         (alloc_state size align h s).
  split; [done|]. cbn [alloc_state TypeMap Chunks ChunkSize Head].
  split; [by eapply list_elem_of_lookup_2|]. split; [done|].
  split; [done|]. split; [done|].
  split; [rewrite u64_small, u32_small by lia; lia|].
  split; [apply alloc_pool_prefix|].
  split; [|by rewrite alloc_pool_mem].
  unfold alloc_pool. rewrite !grown_length. cbn [snd].
  destruct (Chunks s) as [|c0 cs] eqn:Hc.
  - destruct (Hnil eq_refl) as [HH _].
    rewrite (alloc_roll_from_zero size align s HH Hsz) by lia. simpl. lia.
  - simpl. destruct (_ && _); lia.
Qed.

(** X7. A [Push] on a reachable container with a non-empty pool acquires
    no memory when the value fits the rest of the active block or when a
    block retained by an earlier [Clear] lies ahead of the active one:
    the pool and the set of live blocks are unchanged. *)
Theorem X7_Push_reuses_blocks (T : CType) (v : object) (h : Heap) (s : FFrameData) :
  reachable (h, s) → 0 ≤ sizeof T ≤ ChunkSize s →
  Chunks s ≠ [] →
  u64 (Details.Align u32 (Head s) (alignof T) + sizeof T) ≤ ChunkSize s ∨
    ChunkHead s + 1 < Z.of_nat (length (Chunks s)) →
  ∃ h' s',
    Push T v (h, s) = Some (tt, (h', s')) ∧
    Chunks s' = Chunks s ∧ live h' = live h ∧ next_block h' = next_block h.
Proof.
  intros Hr Hsz Hne Hcase. pose proof (reachable_wf _ Hr) as Hwf.
  destruct (Push_defined T v h s Hwf Hsz) as [w' HP].
  destruct (Push_inv T v h s w' Hwf HP) as (b & h2 & _ & _ & Hst & -> & _).
  pose proof Hwf as (_ & _ & HCH & _). simpl in HCH.
  rewrite (alloc_pool_same (sizeof T) (alignof T) h s) in Hst.
  - apply store_inv in Hst as (? & ? & ? & _ & _ & _ & _ & Hnb & Hl & _).
    eexists _, _. split; [exact HP|].
    cbn [set_TypeMap alloc_state Chunks].
    rewrite (alloc_pool_same (sizeof T) (alignof T) h s); [done|lia|done|].
    destruct Hcase as [Hfit|?]; [left|by right].
    unfold alloc_roll. apply bool_decide_eq_false. lia.
  - lia.
  - done.
  - destruct Hcase as [Hfit|?]; [left|by right].
    unfold alloc_roll. apply bool_decide_eq_false. lia.
Qed.

End PoolFacts.

(** ** [Clear], the destructor and whole lifetimes *)

Section ClearFacts.

(** The second loop of [Clear] hands out consecutive fresh blocks and
    stores each of them in the pool, at or after the starting index. *)
Lemma alloc_from_live sz fuel : ∀ i k v h v' h',
  alloc_from fuel i k sz v h = Some (v', h') →
  (next_block h ≤ next_block h')%nat ∧
  (∀ b, live h' !! b =
        if decide (next_block h ≤ b < next_block h')%nat then Some sz
        else live h !! b) ∧
  (∀ b, (next_block h ≤ b < next_block h')%nat →
        ∃ j, (i ≤ j)%nat ∧ v' !! j = Some (Ptr b 0)) ∧
  (∀ j, (j < i)%nat → v' !! j = v !! j).
Proof.
  assert (Hstop : ∀ (v v' : list pointer) (h h' : Heap) i,
            Some (v, h) = Some (v', h') →
            (next_block h ≤ next_block h')%nat ∧
            (∀ b, live h' !! b =
                  if decide (next_block h ≤ b < next_block h')%nat then Some sz
                  else live h !! b) ∧
            (∀ b, (next_block h ≤ b < next_block h')%nat →
                  ∃ j, (i ≤ j)%nat ∧ v' !! j = Some (Ptr b 0)) ∧
            (∀ j, (j < i)%nat → v' !! j = v !! j)).
  { intros v v' h h' i [= <- <-]. split; [lia|]. split.
    - intros b. by rewrite decide_False by lia.
    - split; [intros; lia|done]. }
  induction fuel as [|fuel IH]; intros i k v h v' h' Ha; simpl in Ha.
  - destruct (decide (i < k)%nat); [done|]. by apply Hstop.
  - destruct (decide (i < k)%nat) as [Hik|]; [|by apply Hstop].
    destruct (decide (i < length v)%nat) as [Hlen|]; [|done].
    apply IH in Ha as (Hn & Hl & Hnew & Hold). simpl in *.
    split; [lia|]. split; [|split].
    + intros b. rewrite Hl.
      destruct (decide (b = next_block h)) as [->|Hb].
      * rewrite lookup_insert_eq.
        repeat (match goal with |- context [decide ?P] => destruct (decide P) end);
          try done; lia.
      * rewrite lookup_insert_ne by done.
        repeat (match goal with |- context [decide ?P] => destruct (decide P) end);
          try done; lia.
    + intros b Hb. destruct (decide (b = next_block h)) as [->|Hne].
      * exists i. split; [lia|]. rewrite Hold by lia.
        by apply list_lookup_insert_eq.
      * destruct (Hnew b ltac:(lia)) as (j & Hj & Hv). exists j. split; [lia|done].
    + intros j Hj. rewrite Hold by lia. apply list_lookup_insert_ne. lia.
Qed.

(** The outcome of [Clear] depends on the pool and the block size only. *)
Lemma Clear_ignores_cursor k h s :
  Clear k (h, s) = Clear k (h, mkFrameData ∅ (Chunks s) (ChunkSize s) 0 0).
Proof. by rewrite !Clear_unfold. Qed.

(** The live blocks after [Clear]: the blocks of the new pool, and what
    was live before outside the old pool. *)
Lemma Clear_live k h s h' s' :
  pool_wf (h, s) → Clear k (h, s) = Some (tt, (h', s')) →
  (next_block h ≤ next_block h')%nat ∧ mem h' = mem h ∧
  s' = mkFrameData ∅ (Chunks s') (ChunkSize s) 0 0 ∧
  length (Chunks s') = k ∧ pool_wf (h', s') ∧
  (∀ b, Ptr b 0 ∈ Chunks s' → Ptr b 0 ∈ Chunks s ∨ (next_block h ≤ b)%nat) ∧
  (∀ b, live h' !! b =
        if decide (Ptr b 0 ∈ Chunks s') then Some (ChunkSize s)
        else if decide (Ptr b 0 ∈ Chunks s) then None else live h !! b).
Proof.
  intros Hwf HC.
  destruct (Clear_spec k h s Hwf)
    as (h1 & c1 & HC1 & Hwf1 & Hlen & Hmem & Hkeep & Hshr & Hgrow).
  pose proof HC as HC2. rewrite HC1 in HC2. injection HC2 as <- <-.
  cbn [Chunks].
  destruct Hwf as (Hcs & Hhd & Hch & Hidx & Hhw & Hall & Hnd). simpl in *.
  rewrite Forall_forall in Hall.
  assert (Hpool : ∀ b, Ptr b 0 ∈ Chunks s → live h !! b = Some (ChunkSize s)).
  { intros b Hb. by destruct (Hall _ Hb) as (b' & [= <-] & Hl). }
  rewrite Clear_unfold in HC.
  destruct (decide (k < length (Chunks s))%nat) as [Hlt|Hge].
  - destruct (Hshr Hlt) as [-> _].
    destruct (free_from_spec (Chunks s) (length (Chunks s)) k h)
      as (h2 & Hf & Hnext & _ & Hlive); [lia|done| |].
    { intros j p _ Hp. destruct (Hall p) as (b & -> & Hb);
        [by eapply list_elem_of_lookup_2|]. eauto. }
    rewrite Hf in HC. injection HC as ->.
    split; [lia|]. repeat (split; [done|]).
    split. { intros b Hb. left. by eapply subseteq_take. }
    intros b. rewrite Hlive.
    rewrite <- (take_drop k (Chunks s)) in Hnd.
    apply NoDup_app in Hnd as (_ & Hdis & _).
    destruct (decide (Ptr b 0 ∈ take k (Chunks s))) as [Ht|Ht].
    + rewrite decide_False by (by apply Hdis).
      apply Hpool. by eapply subseteq_take.
    + destruct (decide (Ptr b 0 ∈ Chunks s)) as [Hc|Hc].
      * rewrite decide_True; [done|].
        rewrite <- (take_drop k (Chunks s)) in Hc.
        apply elem_of_app in Hc as [?|?]; done.
      * rewrite decide_False; [done|]. intros Hd. apply Hc.
        by eapply subseteq_drop.
  - destruct (Hgrow ltac:(lia)) as (new & -> & Hnl & Hnew).
    rewrite Forall_forall in Hnew.
    destruct (alloc_from _ _ _ _ _ _) as [[c2 h2]|] eqn:Ha; [|done].
    injection HC as -> ->.
    apply alloc_from_live in Ha as (Hn & Hl & Hin & _).
    split; [done|]. repeat (split; [done|]).
    split.
    { intros b [Hb|Hb]%elem_of_app; [by left|right].
      destruct (Hnew _ Hb) as (b' & [= <-] & Hnone & Hsome).
      rewrite Hl in Hsome.
      destruct (decide (_ ≤ b < _)%nat); [lia|].
      pose proof (eq_trans (eq_sym Hnone) Hsome) as Hx. discriminate Hx. }
    intros b. rewrite Hl.
    destruct (decide (Ptr b 0 ∈ Chunks s ++ new)) as [Hb|Hb].
    + apply elem_of_app in Hb as [Hb|Hb].
      * case_decide; [done|]. by apply Hpool.
      * destruct (Hnew _ Hb) as (b' & [= <-] & Hnone & Hsome).
        by rewrite Hl in Hsome.
    + rewrite decide_False.
      * rewrite decide_False; [done|]. intros Hc. apply Hb, elem_of_app. by left.
      * intros Hr. destruct (Hin b Hr) as (j & _ & Hj).
        apply Hb. by eapply list_elem_of_lookup_2.
Qed.

(** X8. Clearing twice with the same slack is clearing once: the second
    call frees nothing, acquires nothing and leaves the container and
    the heap as the first call left them. *)
Theorem X8_Clear_is_idempotent (k : nat) (h : Heap) (s : FFrameData) :
  reachable (h, s) →
  ∃ w', Clear k (h, s) = Some (tt, w') ∧ Clear k w' = Some (tt, w') ∧
        (Clear k ;; Clear k) (h, s) = Clear k (h, s).
Proof.
  intros Hr.
  destruct (Clear_spec k h s (reachable_wf _ Hr)) as (h' & c' & HC & _ & Hlen & _).
  assert (H2 : Clear k (h', mkFrameData ∅ c' (ChunkSize s) 0 0)
               = Some (tt, (h', mkFrameData ∅ c' (ChunkSize s) 0 0))).
  { rewrite Clear_unfold. cbn [Chunks ChunkSize].
    rewrite decide_False by lia.
    rewrite <- Hlen at 1 3. rewrite resize_all.
    assert (Hs : ∀ f, alloc_from f (length c') k (ChunkSize s) c' h' = Some (c', h')).
    { intros f. destruct f; simpl; by rewrite decide_False by lia. }
    by rewrite Hs. }
  eexists. split; [exact HC|]. split; [exact H2|].
  unfold bind at 1. by rewrite HC.
Qed.

End ClearFacts.

Section MoveFacts.

(** X9. A push on the source of a move is undefined whenever the
    source had its active block index at 1 or more, whatever the type,
    the value and the heap are: the pool of one block that [Allocate]
    sets up is read at the stale index. *)
Theorem X9_moved_from_push_is_undefined
    (T : CType) (v : object) (h : Heap) (s : FFrameData) :
  1 ≤ ChunkHead s < 2 ^ 32 - 1 →
  Push T v (h, snd (MoveConstruct s)) = None.
Proof.
  intros Hch. rewrite Push_unfold.
  by rewrite moved_from_Allocate_undefined.
Qed.

(** X10. [Clear] makes the source of a move usable again: it is defined
    on it with any slack, leaves a well-formed container of that many
    blocks with offset and index zero, and every push of a value that
    fits a block is then defined. *)
Theorem X10_Clear_repairs_moved_from (k : nat) (h : Heap) (s : FFrameData) :
  reachable (h, s) →
  ∃ h' s',
    Clear k (h, snd (MoveConstruct s)) = Some (tt, (h', s')) ∧
    pool_wf (h', s') ∧ length (Chunks s') = k ∧
    Head s' = 0 ∧ ChunkHead s' = 0 ∧ ChunkSize s' = ChunkSize s ∧
    ∀ T v, 0 ≤ sizeof T ≤ ChunkSize s → ∃ w'', Push T v (h', s') = Some (tt, w'').
Proof.
  intros Hr. pose proof (reachable_wf _ Hr) as (Hcs & _ & _ & _ & Hhw & _).
  simpl in Hcs, Hhw.
  destruct (Clear_spec k h (Construct (ChunkSize s)) (Construct_wf h _ Hhw Hcs))
    as (h' & c' & HC & Hwf' & Hlen & _).
  rewrite Clear_ignores_cursor. simpl in *.
  eexists _, _. split; [exact HC|]. simpl. repeat (split; [done|]).
  intros T v Hfit. by apply Push_defined.
Qed.

(** X11. After a move, destroying the source frees nothing, on any heap,
    and destroying the target frees exactly the blocks of the pool and
    changes no byte; the two destructors can run in either order, so no
    block is freed twice. *)
Theorem X11_destructors_after_move (h : Heap) (s : FFrameData) :
  reachable (h, s) →
  (∀ h1, Destroy (h1, snd (MoveConstruct s)) = Some (tt, (h1, Construct (ChunkSize s)))) ∧
  ∃ h',
    Destroy (h, fst (MoveConstruct s)) = Some (tt, (h', Construct (ChunkSize s))) ∧
    (∀ b, live h' !! b = if decide (Ptr b 0 ∈ Chunks s) then None else live h !! b) ∧
    mem h' = mem h.
Proof.
  intros Hr. split; [done|].
  pose proof (reachable_wf _ (reach_Move _ _ Hr)) as Hwf.
  destruct (Clear_spec 0 h _ Hwf) as (h' & c' & HC & _ & Hlen & _).
  apply length_zero_iff_nil in Hlen as ->.
  destruct (Clear_live 0 h _ _ _ Hwf HC) as (_ & Hmem & _ & _ & _ & _ & Hlive).
  exists h'. split; [exact HC|]. split; [|done].
  intros b. rewrite Hlive. simpl.
  destruct (decide (Ptr b 0 ∈ [])) as [He|_]; [by apply not_elem_of_nil in He|done].
Qed.

End MoveFacts.

(** ** Heap accounting over a whole lifetime *)

Section Lifetime.

Variable h0 : Heap.
Hypothesis h0_wf : heap_wf h0.

Lemma owned_start cs : owned h0 cs (h0, []).
Proof.
  split; [done|]. split; [by intros b Hb%not_elem_of_nil|].
  split; [|done]. intros b. simpl.
  destruct (decide (Ptr b 0 ∈ [])) as [He|_]; [by apply not_elem_of_nil in He|done].
Qed.

Lemma owned_grown c sz hc : owned h0 sz hc → owned h0 sz (grown c sz hc).
Proof.
  destruct c; [|done]. destruct hc as [h c]. intros (Hn & Hge & Hl & Hm).
  unfold owned. simpl in *. split; [lia|]. split; [|split; [|done]].
  - intros b [Hb|Hb%list_elem_of_singleton]%elem_of_app; [by apply Hge|].
    injection Hb as ->. done.
  - intros b. destruct (decide (b = next_block h)) as [->|Hb].
    + rewrite lookup_insert_eq, decide_True; [done|].
      apply elem_of_app. right. by apply list_elem_of_singleton.
    + rewrite lookup_insert_ne by done. rewrite Hl.
      destruct (decide (Ptr b 0 ∈ c)) as [Hc|Hc].
      * rewrite decide_True; [done|]. apply elem_of_app. by left.
      * rewrite decide_False; [done|].
        intros [?|Hx%list_elem_of_singleton]%elem_of_app; [done|].
        by injection Hx.
Qed.

Lemma owned_Push T v h s h' s' :
  pool_wf (h, s) → owned h0 (ChunkSize s) (h, Chunks s) →
  Push T v (h, s) = Some (tt, (h', s')) →
  pool_wf (h', s') ∧ ChunkSize s' = ChunkSize s ∧
  owned h0 (ChunkSize s) (h', Chunks s').
Proof.
  intros Hwf Ho HP.
  destruct (Push_inv T v h s _ Hwf HP) as (b & h2 & Hidx & Hlive & Hst & Hw & Hwf').
  injection Hw as -> ->. split; [done|]. split; [done|].
  assert (Ho1 : owned h0 (ChunkSize s) (alloc_pool (sizeof T) (alignof T) h s)).
  { unfold alloc_pool. by do 2 apply owned_grown. }
  cbn [set_TypeMap alloc_state Chunks].
  destruct Ho1 as (Hn & Hge & Hl & Hm).
  apply store_inv in Hst as (b' & o' & sz & [= <- <-] & _ & _ & _ & Hnb & Hlv & Hmem).
  split; [simpl; lia|]. split; [done|]. split.
  - intros x. simpl. rewrite Hlv. apply Hl.
  - intros x i Hx. simpl. rewrite Hmem. rewrite decide_False; [by apply Hm|].
    intros [-> _]. apply list_elem_of_lookup_2, Hge in Hidx. lia.
Qed.

Lemma owned_Clear k h s h' s' :
  pool_wf (h, s) → owned h0 (ChunkSize s) (h, Chunks s) →
  Clear k (h, s) = Some (tt, (h', s')) →
  pool_wf (h', s') ∧ ChunkSize s' = ChunkSize s ∧
  owned h0 (ChunkSize s) (h', Chunks s').
Proof.
  intros Hwf (Hn & Hge & Hl & Hm) HC. simpl in *.
  destruct (Clear_live k h s h' s' Hwf HC) as (Hn' & Hmem & Hs' & _ & Hwf' & Hin & Hlive).
  split; [done|]. split; [by rewrite Hs'|].
  split; [simpl; lia|]. split; [|split]; simpl.
  - intros b Hb. destruct (Hin b Hb) as [Hc|?]; [by apply Hge|lia].
  - intros b. rewrite Hlive. destruct (decide (Ptr b 0 ∈ Chunks s')); [done|].
    rewrite Hl. destruct (decide (Ptr b 0 ∈ Chunks s)) as [Hc|Hc]; [|done].
    destruct (live h0 !! b) eqn:E; [|done].
    apply Hge in Hc. pose proof (h0_wf b (ex_intro _ _ E)). lia.
  - intros b i Hb. rewrite Hmem. by apply Hm.
Qed.

Lemma run_ops_owned ops : ∀ h s,
  pool_wf (h, s) → owned h0 (ChunkSize s) (h, Chunks s) →
  Forall (Op_fits (ChunkSize s)) ops →
  ∃ h' s', run_ops ops (h, s) = Some (tt, (h', s')) ∧
           pool_wf (h', s') ∧ ChunkSize s' = ChunkSize s ∧
           owned h0 (ChunkSize s) (h', Chunks s').
Proof.
  induction ops as [|op ops IH]; intros h s Hwf Ho Hfit.
  - exists h, s. done.
  - apply Forall_cons in Hfit as [Hop Hfit]. destruct op as [T v|k]; simpl.
    + destruct (Push_defined T v h s Hwf Hop) as [[h1 s1] HP].
      destruct (owned_Push T v h s h1 s1 Hwf Ho HP) as (Hwf1 & Hcs1 & Ho1).
      rewrite <- Hcs1 in Ho1, Hfit.
      destruct (IH h1 s1 Hwf1 Ho1 Hfit) as (h' & s' & Hrun & Hwf' & Hcs' & Ho').
      exists h', s'. unfold bind. rewrite HP. rewrite Hrun.
      rewrite <- Hcs1. split; [done|]. split; [done|]. split; [congruence|done].
    + destruct (Clear_spec k h s Hwf) as (h1 & c1 & HC & _).
      destruct (owned_Clear k h s _ _ Hwf Ho HC) as (Hwf1 & Hcs1 & Ho1).
      rewrite <- Hcs1 in Ho1, Hfit.
      destruct (IH _ _ Hwf1 Ho1 Hfit) as (h' & s' & Hrun & Hwf' & Hcs' & Ho').
      exists h', s'. unfold bind. rewrite HC. rewrite Hrun.
      rewrite <- Hcs1. split; [done|]. split; [done|]. split; [congruence|done].
Qed.

(** X12. Any sequence of pushes (each of a value that fits a block) and
    resets on a new container is defined. At every point of it the live
    heap blocks are those that were live at construction plus the blocks
    of the pool, and no byte of a block that existed at construction
    has changed. The destructor then frees exactly the pool: the set of
    live blocks is again the one at construction, and no byte changes. *)
Theorem X12_lifetime_returns_all_memory (cs : Z) (ops : list Op) :
  0 ≤ cs < 2 ^ 32 → Forall (Op_fits cs) ops →
  ∃ h s h',
    run_ops ops (h0, Construct cs) = Some (tt, (h, s)) ∧
    (∀ b, live h !! b =
          if decide (Ptr b 0 ∈ Chunks s) then Some cs else live h0 !! b) ∧
    (∀ b i, (b < next_block h0)%nat → mem h b i = mem h0 b i) ∧
    Destroy (h, s) = Some (tt, (h', Construct cs)) ∧
    live h' = live h0 ∧ mem h' = mem h.
Proof.
  intros Hcs Hfit.
  destruct (run_ops_owned ops h0 (Construct cs) (Construct_wf h0 cs h0_wf Hcs)
              (owned_start cs) Hfit) as (h & s & Hrun & Hwf & Hcs' & Ho).
  simpl in Hcs', Ho.
  destruct (Clear_spec 0 h s Hwf) as (h' & c' & HC & _ & Hlen & _).
  apply length_zero_iff_nil in Hlen as ->.
  destruct (owned_Clear 0 h s _ _ Hwf ltac:(by rewrite Hcs') HC) as (_ & _ & Ho').
  destruct (Clear_live 0 h s _ _ Hwf HC) as (_ & Hmem & _).
  destruct Ho as (_ & _ & Hl & Hm). destruct Ho' as (_ & _ & Hl' & _).
  exists h, s, h'. split; [done|]. split; [done|]. split; [done|].
  split; [unfold Destroy; by rewrite HC, Hcs'|]. split; [|done].
  apply map_eq. intros b. rewrite Hl'. simpl.
  destruct (decide (Ptr b 0 ∈ [])) as [He|_]; [by apply not_elem_of_nil in He|done].
Qed.

End Lifetime.

(** ** Frames *)

Section FrameFacts.

(** X13. A push writes the bytes of the value at the address it records
    for it and nothing else: every other byte of memory is as before,
    every block that was live stays live with its size, and the entry of
    the type in the registry gains that one address at its end. *)
Theorem X13_Push_writes_only_its_bytes
    (T : CType) (v : object) (h h' : Heap) (s s' : FFrameData) :
  reachable (h, s) → Push T v (h, s) = Some (tt, (h', s')) →
  ∃ b o,
    TypeMap s' = <[TTypeIndex T :=
                     default [] (TypeMap s !! TTypeIndex T) ++ [Ptr b o]]> (TypeMap s) ∧
    (∀ b' i, mem h' b' i =
             if decide (b' = b ∧ o ≤ i < o + sizeof T) then v (i - o)
             else mem h b' i) ∧
    (∀ b' n, live h !! b' = Some n → live h' !! b' = Some n) ∧
    ChunkSize s' = ChunkSize s.
Proof.
  intros Hr HP. pose proof (reachable_wf _ Hr) as Hwf.
  destruct (Push_inv T v h s _ Hwf HP) as (b & h2 & _ & _ & Hst & Hw & _).
  injection Hw as -> ->.
  apply store_inv in Hst as (b' & o' & sz & [= <- <-] & _ & _ & _ & _ & Hlv & Hmem).
  exists b, (alloc_offset (sizeof T) (alignof T) s).
  split; [done|]. split; [|split; [|done]].
  - intros b' i. by rewrite Hmem, alloc_pool_mem.
  - intros b' n Hb. rewrite Hlv. apply alloc_pool_live; [|done].
    by destruct Hwf as (_ & _ & _ & _ & ? & _).
Qed.

(** X14. On a reachable container whose block size and block count are
    away from the 32-bit limits, a push within its contract keeps every
    value stored in the used part of the pool: its bytes still lie in
    the used part and still read as the same value. *)
Theorem X14_Push_preserves_stored_values
    (T U : CType) (v u : object) (q : pointer) (h : Heap) (s : FFrameData) (w' : World) :
  reachable (h, s) →
  ChunkSize s ≤ 2 ^ 32 - 64 → ChunkHead s + 1 < 2 ^ 32 →
  CType_ok T → alignof T ≤ 64 → sizeof T ≤ ChunkSize s →
  Push T v (h, s) = Some (tt, w') →
  in_used s q (sizeof U) → holds_value h U q u →
  in_used (snd w') q (sizeof U) ∧ holds_value (fst w') U q u.
Proof.
  intros Hr Hcs Hch HT Hal Hsz HP Hin Hv.
  destruct (reachable_cursor _ Hr) as (Hle & _).
  by eapply (Push_keeps_used_values T v h s w' (reachable_wf _ Hr)).
Qed.

(** X15. On a reachable container whose block size is at most 2^32 - 64
    and whose block index is below 2^32 - 1, [Allocate] with a
    power-of-two alignment of at most 64 and a size that fits a block
    is the allocation written with unbounded integers: same address,
    same heap, same container. *)
Theorem X15_Allocate_matches_unbounded (size align : Z) (h : Heap) (s : FFrameData) :
  reachable (h, s) →
  is_alignment align → align ≤ 64 → 0 ≤ size ≤ ChunkSize s →
  ChunkSize s ≤ 2 ^ 32 - 64 → ChunkHead s + 1 < 2 ^ 32 →
  Allocate size align (h, s) = Allocate_spec size align (h, s).
Proof.
  intros Hr Hal Ha Hsz Hcs Hch.
  destruct (reachable_cursor _ Hr) as (Hle & _).
  by apply Allocate_refines_spec; [apply reachable_wf|..].
Qed.

Lemma PushAll_in_pool ops : ∀ h s,
  pool_wf (h, s) →
  Forall (λ op, 0 ≤ sizeof (fst op) ≤ ChunkSize s) ops →
  Head s = 0 ∧ ChunkHead s + Z.of_nat (length ops) ≤ Z.of_nat (length (Chunks s)) ∨
  ChunkHead s + 1 + Z.of_nat (length ops) ≤ Z.of_nat (length (Chunks s)) →
  ∃ h' s', PushAll ops (h, s) = Some (tt, (h', s')) ∧
           Chunks s' = Chunks s ∧ live h' = live h ∧
           next_block h' = next_block h.
Proof.
  induction ops as [|[T v] ops IH]; intros h s Hwf Hfit Hroom.
  - exists h, s. done.
  - apply Forall_cons in Hfit as [Hop Hfit]. simpl in Hop.
    destruct (Push_defined T v h s Hwf Hop) as [[h1 s1] HP].
    destruct (Push_inv T v h s _ Hwf HP) as (b & h2 & _ & _ & Hst & Hw & Hwf1).
    injection Hw as -> ->.
    pose proof Hwf as (Hcs & _ & HCH & _). simpl in Hcs, HCH.
    assert (Hne : Chunks s ≠ []).
    { intros E. rewrite E in Hroom. simpl in Hroom. lia. }
    assert (Hroll : alloc_roll (sizeof T) (alignof T) s = false ∨
                    ChunkHead s + 1 < Z.of_nat (length (Chunks s))).
    { destruct Hroom as [[HH _]|Hr]; [left|right].
      - apply alloc_roll_from_zero; [done|done|lia].
      - simpl in Hr. lia. }
    pose proof (alloc_pool_same (sizeof T) (alignof T) h s ltac:(lia) Hne Hroll) as Hsame.
    rewrite Hsame in Hst.
    apply store_inv in Hst as (? & ? & ? & _ & _ & _ & _ & Hnb & Hlv & _).
    edestruct (IH h2) as (h' & s' & Hrun & Hc' & Hl' & Hn'); [exact Hwf1| | |].
    { exact Hfit. }
    { right. cbn [set_TypeMap alloc_state Chunks ChunkHead]. rewrite Hsame.
      cbn [snd]. unfold alloc_index.
      destruct Hroom as [[HH Hr]|Hr]; simpl in Hr.
      - rewrite alloc_roll_from_zero by (done || lia). lia.
      - destruct (alloc_roll _ _ _); [|lia].
        pose proof (u32_succ_le (ChunkHead s) ltac:(lia)). lia. }
    exists h', s'. simpl. unfold bind. rewrite HP. rewrite Hrun.
    split; [done|]. rewrite Hc', Hl', Hn'.
    cbn [set_TypeMap alloc_state Chunks]. rewrite Hsame. done.
Qed.

(** X16. A frame that starts on a new or just reset container and
    pushes no more values than the pool has blocks, each value fitting a
    block, is defined and acquires no memory: the pool and the set of
    live heap blocks at its end are those at its start. *)
Theorem X16_presized_frame_acquires_nothing
    (ops : list (CType * object)) (w : World) :
  fresh_frame w →
  Forall (λ op, 0 ≤ sizeof (fst op) ≤ ChunkSize (snd w)) ops →
  (length ops ≤ length (Chunks (snd w)))%nat →
  ∃ w', PushAll ops w = Some (tt, w') ∧
        Chunks (snd w') = Chunks (snd w) ∧
        live (fst w') = live (fst w) ∧
        next_block (fst w') = next_block (fst w).
Proof.
  intros Hf Hfit Hlen. destruct w as [h s].
  destruct (fresh_frame_start _ Hf) as (Hwf & _ & HH & HCH). simpl in *.
  destruct (PushAll_in_pool ops h s Hwf Hfit) as (h' & s' & HP & ?);
    [left; split; [done|lia]|].
  exists (h', s'). done.
Qed.

(** X17. Walking the view of a type visits exactly the addresses the
    registry holds for its fingerprint, in order: with fuel for that
    many steps the walk ends and yields them without changing the
    container, and with less it does not reach the end. On a reachable
    container the view is empty exactly when the fingerprint has no
    entry. *)
Theorem X17_view_walk_is_exact (T : CType) (w : World) :
  let vec := default [] (TypeMap (snd w) !! TTypeIndex T) in
  (∀ fuel, (length vec ≤ fuel)%nat → Query T fuel w = Some (vec, w)) ∧
  (∀ fuel, (fuel < length vec)%nat → Query T fuel w = None) ∧
  (reachable w →
   ∃ r, Data T w = Some (r, w) ∧
        (Begin r = End_ r ↔ TypeMap (snd w) !! TTypeIndex T = None)).
Proof.
  simpl. destruct (TypeMap (snd w) !! TTypeIndex T) as [vec|] eqn:E; simpl.
  - split; [intros fuel Hf; by apply Query_found|].
    split; [intros fuel Hf; by eapply Query_short|].
    intros Hr. rewrite Data_eq, E. eexists. split; [done|]. simpl.
    destruct (reachable_cursor _ Hr) as (_ & _ & Hreg).
    destruct (Hreg _ _ E) as [Hne _].
    split; [|done]. intros [= Hz]. symmetry in Hz.
    by apply length_zero_iff_nil in Hz.
  - split; [intros fuel _; by apply Query_absent|].
    split; [intros fuel Hf; lia|].
    intros _. rewrite Data_eq, E. eexists. done.
Qed.

End FrameFacts.

(** ** Allocations do not overlap *)

Section Disjointness.

(** Away from the 32-bit limits, the range an allocation gets lies
    beyond everything in the used part of the pool. *)
Lemma alloc_skips_used size align h s b :
  pool_wf (h, s) → Head s ≤ ChunkSize s →
  ChunkSize s ≤ 2 ^ 32 - 64 → ChunkHead s + 1 < 2 ^ 32 →
  is_alignment align → align ≤ 64 → 0 ≤ size ≤ ChunkSize s →
  snd (alloc_pool size align h s) !! Z.to_nat (alloc_index size align s)
    = Some (Ptr b 0) →
  ∀ b' o' n, in_used s (Ptr b' o') n →
             b' ≠ b ∨ o' + n ≤ alloc_offset size align s.
Proof.
  intros Hwf Hhd Hcs Hch Hal Ha Hsz Hidx b' o' n
    (i & b1 & o1 & [= <- <-] & Hi & Ho & Hn & Hused).
  pose proof Hwf as (Hcs' & Hhd' & Hch' & _ & Hpool). simpl in *.
  destruct (alloc_nowrap size align s) as [_ Hcase]; try lia; try done.
  pose proof (alloc_pool_ok size align h s Hpool) as (_ & _ & Hnd).
  assert (Hi2 : snd (alloc_pool size align h s) !! i = Some (Ptr b' 0)).
  { eapply prefix_lookup_Some; [exact Hi|apply alloc_pool_prefix]. }
  destruct (decide (b' = b)) as [->|Hne]; [right|by left].
  assert (i = Z.to_nat (alloc_index size align s))
    by (eapply NoDup_lookup; eauto).
  destruct Hcase as [(_ & Hi' & Hge & _)|(_ & Hi' & _)];
    destruct Hused as [[? ?]|[? ?]]; lia.
Qed.

(** X18. On a reachable container away from the 32-bit limits, the
    range [Allocate] returns belongs to the used part of the pool
    afterwards and shares no byte with what was in the used part
    before: any earlier range is in another block or ends at or before
    the new address. *)
Theorem X18_Allocate_skips_used_part (size align : Z) (h : Heap) (s : FFrameData) :
  reachable (h, s) →
  is_alignment align → align ≤ 64 → 0 ≤ size ≤ ChunkSize s →
  ChunkSize s ≤ 2 ^ 32 - 64 → ChunkHead s + 1 < 2 ^ 32 →
  ∃ b o h' s',
    Allocate size align (h, s) = Some (Ptr b o, (h', s')) ∧
    in_used s' (Ptr b o) size ∧
    ∀ b' o' n, in_used s (Ptr b' o') n → b' ≠ b ∨ o' + n ≤ o.
Proof.
  intros Hr Hal Ha Hsz Hcs Hch. pose proof (reachable_wf _ Hr) as Hwf.
  destruct (reachable_cursor _ Hr) as (Hle & _). simpl in Hle.
  destruct (Allocate_wf size align h s Hwf) as (b & HA & Hidx & _ & _).
  pose proof Hwf as (Hcs' & Hhd' & Hch' & _). simpl in Hcs', Hhd', Hch'.
  destruct (alloc_nowrap size align s) as [Hhead Hcase]; try lia; try done.
  eexists _, _, _, _. split; [exact HA|]. split.
  - exists (Z.to_nat (alloc_index size align s)), b, (alloc_offset size align s).
    split; [done|]. split; [done|].
    cbn [alloc_state ChunkHead Head ChunkSize]. rewrite Hhead.
    destruct Hcase as [(_ & Hi & ? & ?)|(_ & Hi & Hz)];
      (split; [lia|]); (split; [lia|]); right; lia.
  - by eapply alloc_skips_used.
Qed.

Lemma Push_frame_step (log : Log) T v h s :
  frame_inv log (h, s) →
  CType_ok T → alignof T ≤ 64 → sizeof T ≤ ChunkSize s →
  ChunkSize s ≤ 2 ^ 32 - 64 → Z.of_nat (length log) < 2 ^ 32 - 1 →
  ∃ w' b o, Push T v (h, s) = Some (tt, w') ∧
            frame_inv (log ++ [(T, v, Ptr b o)]) w' ∧
            ChunkSize (snd w') = ChunkSize s ∧
            ∀ b' o' n, in_used s (Ptr b' o') n → b' ≠ b ∨ o' + n ≤ o.
Proof.
  intros Hinv Hok Hle Hfit Hcs Hlen.
  destruct (Push_frame_inv log T v h s Hinv Hok Hle Hfit Hcs Hlen)
    as (w' & p & HP & Hinv' & Hcs').
  destruct Hinv as (Hwf & Hhd & Hch & Hreg & Hlog). simpl in *.
  destruct (Push_inv T v h s w' Hwf HP) as (b & h2 & Hidx & _ & _ & Hw & _).
  assert (Hp : p = Ptr b (alloc_offset (sizeof T) (alignof T) s)).
  { destruct Hinv' as (_ & _ & _ & Hreg' & _). specialize (Hreg' (TTypeIndex T)).
    rewrite Hw in Hreg'. simpl in Hreg'. rewrite lookup_insert_eq in Hreg'.
    rewrite log_ptrs_app, log_ptrs_singleton in Hreg'.
    rewrite (decide_True (P := TTypeIndex T = TTypeIndex T)) in Hreg' by done.
    rewrite (decide_False (P := log_ptrs (TTypeIndex T) log ++ [p] = [])) in Hreg'
      by (by destruct (log_ptrs (TTypeIndex T) log)).
    injection Hreg' as Hreg'. apply app_inj_tail in Hreg' as [_ Hq].
    done. }
  subst p. exists w', b, (alloc_offset (sizeof T) (alignof T) s).
  split; [done|]. split; [done|]. split; [done|].
  destruct Hok as [Hsz Hal].
  eapply alloc_skips_used; eauto; lia.
Qed.

Lemma log_disjoint_snoc (log : Log) e :
  log_disjoint log →
  (∀ e1, e1 ∈ log → placed_before (snd e1) (sizeof (fst (fst e1))) (snd e)) →
  log_disjoint (log ++ [e]).
Proof.
  unfold log_disjoint, Log in *. intros Hd He i j e1 e2 Hij H1 H2.
  assert (Hj : (j < length (log ++ [e]))%nat) by (by eapply lookup_lt_Some).
  rewrite length_app in Hj. simpl in Hj.
  rewrite lookup_app_l in H1 by lia.
  destruct (decide (j < length log)%nat) as [Hlt|Hge].
  - rewrite lookup_app_l in H2 by lia. exact (Hd i j e1 e2 Hij H1 H2).
  - rewrite lookup_app_r in H2 by lia.
    replace (j - length log)%nat with 0%nat in H2 by lia.
    injection H2 as <-. apply He. by eapply list_elem_of_lookup_2.
Qed.

Lemma PushAll_disjoint ops : ∀ (log : Log) w,
  frame_inv log w → log_disjoint log →
  Forall (λ op, CType_ok (fst op) ∧ alignof (fst op) ≤ 64 ∧
                sizeof (fst op) ≤ ChunkSize (snd w)) ops →
  ChunkSize (snd w) ≤ 2 ^ 32 - 64 →
  Z.of_nat (length log + length ops) < 2 ^ 32 →
  ∃ w' log', PushAll ops w = Some (tt, w') ∧
             frame_inv (log ++ log') w' ∧ map fst log' = ops ∧
             log_disjoint (log ++ log').
Proof.
  induction ops as [|[T v] ops IH]; intros log [h s] Hinv Hd Hall Hcs Hlen.
  - exists (h, s), []. rewrite app_nil_r. done.
  - apply Forall_cons in Hall as [(Hok & Hle & Hfit) Hall]. simpl in *.
    destruct (Push_frame_step log T v h s Hinv Hok Hle Hfit Hcs ltac:(lia))
      as (w1 & b & o & HP & Hinv1 & Hcs1 & Hnew).
    assert (Hd1 : log_disjoint (log ++ [(T, v, Ptr b o)])).
    { apply log_disjoint_snoc; [done|]. intros [[U u] q] He. simpl.
      destruct Hinv as (_ & _ & _ & _ & Hlog). rewrite Forall_forall in Hlog.
      destruct (Hlog _ He) as [Hu _]. simpl in Hu.
      pose proof Hu as (i & b1 & o1 & -> & _).
      exists b1, o1, b, o. split; [done|]. split; [done|]. by apply Hnew. }
    destruct (IH (log ++ [(T, v, Ptr b o)]) w1 Hinv1 Hd1)
      as (w' & log' & HP' & Hinv' & Hmap & Hd').
    + by rewrite Hcs1.
    + by rewrite Hcs1.
    + rewrite length_app. simpl. lia.
    + exists w', ((T, v, Ptr b o) :: log'). unfold bind. rewrite HP, HP'.
      split; [done|]. rewrite <- app_assoc in Hinv', Hd'.
      split; [done|]. split; [simpl; by rewrite Hmap|done].
Qed.

(** X19. In a frame within the contract and away from the 32-bit limits
    no two pushed values overlap: the registry at the end of the frame
    lists, per fingerprint and in push order, one address for each push,
    every value reads back at its address, and the bytes of a value lie
    in another block than, or end at or before, the address of every
    value pushed after it. *)
Theorem X19_frame_values_do_not_overlap
    (ops : list (CType * object)) (w : World) :
  fresh_frame w →
  Forall (λ op, CType_ok (fst op) ∧ alignof (fst op) ≤ 64 ∧
                sizeof (fst op) ≤ ChunkSize (snd w)) ops →
  ChunkSize (snd w) ≤ 2 ^ 32 - 64 →
  Z.of_nat (length ops) < 2 ^ 32 →
  ∃ w' (log : Log),
    PushAll ops w = Some (tt, w') ∧ map fst log = ops ∧
    registry_of log (TypeMap (snd w')) ∧
    Forall (λ e, holds_value (fst w') (fst (fst e)) (snd e) (snd (fst e))) log ∧
    log_disjoint log.
Proof.
  intros Hf Hall Hcs Hlen.
  assert (Hd0 : log_disjoint []).
  { intros i j e1 e2 _ H1. unfold Log in *. by rewrite lookup_nil in H1. }
  destruct (PushAll_disjoint ops [] w (fresh_frame_inv w Hf) Hd0 Hall Hcs Hlen)
    as (w' & log & HP & Hinv & Hmap & Hd).
  simpl in *. destruct Hinv as (_ & _ & _ & Hreg & Hlog).
  exists w', log. repeat (split; [done|]). split; [|done].
  eapply Forall_impl; [exact Hlog|]. by intros e [_ ?].
Qed.

End Disjointness.

Section Contract.

(** X20. On a reachable container a push of a type with a non-negative
    size is defined exactly when the value fits a block: a larger value
    would be written past the end of the block it is placed in, which is
    undefined behaviour. *)
Theorem X20_Push_defined_iff_fits
    (T : CType) (v : object) (h : Heap) (s : FFrameData) :
  reachable (h, s) → 0 ≤ sizeof T →
  (∃ w', Push T v (h, s) = Some (tt, w')) ↔ sizeof T ≤ ChunkSize s.
Proof.
  intros Hr Hsz. pose proof (reachable_wf _ Hr) as Hwf. split.
  - intros [w' HP].
    destruct (Push_inv T v h s w' Hwf HP) as (b & h2 & _ & Hlive & Hst & _).
    apply store_inv in Hst as (b' & o' & sz & [= <- <-] & Hl & Ho & Hfit & _).
    pose proof (eq_trans (eq_sym Hlive) Hl) as [= <-]. lia.
  - intros Hfit. by apply Push_defined.
Qed.

End Contract.

(** ** Type isolation *)

Section Isolation.



(** What a walk of the view returns is the registry entry. *)
Lemma Query_ptrs T fuel w ptrs w' :
  Query T fuel w = Some (ptrs, w') →
  w' = w ∧ ptrs = default [] (TypeMap (snd w) !! TTypeIndex T).
Proof.
  intros HQ. destruct (TypeMap (snd w) !! TTypeIndex T) as [vec|] eqn:E; simpl.
  - destruct (decide (fuel < length vec)%nat) as [Hlt|Hge].
    + by rewrite (Query_short T fuel w vec E Hlt) in HQ.
    + rewrite (Query_found T fuel w vec E) in HQ by lia. by injection HQ as <- <-.
  - rewrite (Query_absent T fuel w E) in HQ. by injection HQ as <- <-.
Qed.

(** The view yields a sequence of values exactly when the addresses of
    the registry entry hold them, one by one. *)
Lemma Query_yields_entry T w vals :
  Query_yields T w vals ↔
  Forall2 (holds_value (fst w) T)
          (default [] (TypeMap (snd w) !! TTypeIndex T)) vals.
Proof.
  split.
  - intros (ptrs & HQ & HF). by destruct (Query_ptrs _ _ _ _ _ HQ) as [_ <-].
  - intros HF. eexists. split; [|exact HF].
    destruct (TypeMap (snd w) !! TTypeIndex T) as [vec|] eqn:E; simpl.
    + by apply Query_found.
    + by apply Query_absent.
Qed.









(** Outside the bounds of C7 the defect of C2 breaks the isolation: on
    the container of C2, with its first block filled by one value of
    type [Huge], the push of a 64-byte value of another type returns,
    and the view of [Huge] no longer yields the value it yielded. *)
Lemma offset_wrap_breaks_isolation :
  reachable w_huge_full ∧
  TTypeIndex T_Blob64 ≠ TTypeIndex T_Huge ∧
  Query_yields T_Huge w_huge_full [filled x01] ∧
  ¬ isolation_holds w_huge_full T_Blob64 (filled x02) T_Huge.
Proof.
  split; [apply w_huge_full_reachable|].
  split; [intros H; vm_compute in H; discriminate|].
  assert (HY : Query_yields T_Huge w_huge_full [filled x01]).
  { apply Query_yields_entry.
    assert (Hwf : pool_wf w_huge) by (apply Construct_wf; [apply empty_heap_wf|done]).
    destruct (Push_defined T_Huge (filled x01) _ _ Hwf) as [w' HP];
      [split; vm_compute; discriminate|].
    destruct (Push_inv T_Huge (filled x01) _ _ w' Hwf HP)
      as (b & h2 & Hidx & _ & Hst & Hw & _).
    assert (Hfull : w_huge_full = w')
      by (unfold w_huge_full, run_from, w_huge; by rewrite HP).
    vm_compute in Hidx. injection Hidx as <-.
    assert (Hoff : alloc_offset (sizeof T_Huge) (alignof T_Huge) (Construct 4294967295) = 0)
      by (vm_compute; reflexivity).
    rewrite Hoff in Hst, Hw. apply load_store_same in Hst.
    rewrite Hfull, Hw. cbn [fst snd set_TypeMap TypeMap].
    rewrite lookup_insert_eq.
    change (default [] (Some (?l ++ [Ptr 0%nat 0]))) with (l ++ [Ptr 0%nat 0]).
    change (TypeMap (Construct 4294967295)) with (∅ : gmap Z (list pointer)).
    rewrite lookup_empty. constructor; [exact Hst|constructor]. }
  split; [exact HY|].
  intros (w' & HP & Hiso).
  assert (Hal : w' = w_huge_aliased)
    by (unfold w_huge_aliased, run_from; by rewrite HP).
  subst w'. apply (proj1 (Hiso _)) in HY.
  apply (proj1 (Query_yields_entry _ _ _)) in HY.
  destruct offset_wrap_overwrites_value as (Hreg & _ & Hbyte).
  rewrite Hreg in HY.
  change (default [] (Some [Ptr 0%nat 0])) with [Ptr 0%nat 0] in HY.
  remember (fst w_huge_aliased) as h' eqn:Eh. clear Eh Hreg Hiso HP.
  apply Forall2_cons in HY as [(obj & Hload & Hb) _].
  unfold load in Hload.
  repeat case_match; try discriminate Hload.
  injection Hload as <-.
  assert (Hz : 0 ≤ 0 < sizeof T_Huge) by (unfold T_Huge; simpl; lia).
  specialize (Hb 0 Hz).
  change (mem h' 0%nat 0 = x01) in Hb.
  rewrite Hbyte in Hb. discriminate Hb.
Qed.



End Isolation.

(** ** The further properties at concrete inputs *)

Section FurtherWitnesses.

Ltac from_hyps := repeat match goal with |- _ ∧ _ => split; [assumption|] end.

Lemma w_two_blocks_reachable' : reachable (fst w_two_blocks, snd w_two_blocks).
Proof. rewrite <- surjective_pairing. apply w_two_blocks_reachable. Qed.

Lemma fresh_w_prewarmed : fresh_frame w_prewarmed.
Proof.
  right. exists w_new64, 3%nat. split; [apply w_new64_reachable|].
  vm_compute. reflexivity.
Qed.

Lemma X1_witness :
  0 ≤ 3 < 64 ∧ 0 ≤ 5 ∧ 5 + 2 ^ 3 ≤ 2 ^ 64 ∧
  ∃ r, Details.Align u32 5 (2 ^ 3) = u32 r ∧ (2 ^ 3 | r) ∧ 5 ≤ r < 5 + 2 ^ 3.
Proof.
  assert (H1 : 0 ≤ 3 < 64) by lia.
  assert (H2 : 0 ≤ 5) by lia.
  assert (H3 : 5 + 2 ^ 3 ≤ 2 ^ 64) by lia.
  from_hyps.
  destruct (X1_Align_rounds_up u32 5 3 H1 H2 H3) as (r & Hr & Hd & Hb & _).
  exists r. from_hyps; assumption.
Defined.

Lemma X2_witness :
  "a"%char ≠ "b"%char ∧
  Details.ComputeHash ("T = " +:+ String "a" "]")
    ≠ Details.ComputeHash ("T = " +:+ String "b" "]").
Proof.
  assert (H1 : "a"%char ≠ "b"%char) by discriminate.
  split; [assumption|].
  exact (proj1 (X2_one_character_changes_the_hash "T = " "]" "a" "b" H1)).
Defined.

Lemma X4_witness :
  reachable (fst w_two_blocks, snd w_two_blocks) ∧
  0 ≤ Head (snd w_two_blocks) ≤ ChunkSize (snd w_two_blocks) ∧
  NoDup (Chunks (snd w_two_blocks)).
Proof.
  assert (H1 : reachable (fst w_two_blocks, snd w_two_blocks))
    by apply w_two_blocks_reachable'.
  split; [assumption|].
  destruct (X4_reachable_pool_invariant _ _ H1) as (Hh & _ & _ & _ & Hnd & _).
  split; assumption.
Defined.

Lemma X5_witness :
  reachable (fst w_char, snd w_char) ∧
  TypeMap (snd w_char) !! TTypeIndex T_char = Some [Ptr 0%nat 0] ∧
  ∀ p, p ∈ [Ptr 0%nat 0] →
       ∃ b o, p = Ptr b o ∧ Ptr b 0 ∈ Chunks (snd w_char) ∧
              live (fst w_char) !! b = Some (ChunkSize (snd w_char)) ∧
              0 ≤ o < ChunkSize (snd w_char).
Proof.
  assert (H1 : reachable (fst w_char, snd w_char)) by apply w_char_reachable.
  assert (H2 : TypeMap (snd w_char) !! TTypeIndex T_char = Some [Ptr 0%nat 0])
    by (vm_compute; reflexivity).
  from_hyps.
  exact (proj2 (X5_registered_addresses_in_pool _ _ _ _ H1 H2)).
Defined.

Lemma X6_witness :
  reachable (fst w_char, snd w_char) ∧
  0 ≤ 8 ≤ ChunkSize (snd w_char) ∧
  ∃ b o h' s',
    Allocate 8 8 (fst w_char, snd w_char) = Some (Ptr b o, (h', s')) ∧
    Ptr b 0 ∈ Chunks s' ∧ 0 ≤ o ∧ o + 8 ≤ ChunkSize (snd w_char).
Proof.
  assert (H1 : reachable (fst w_char, snd w_char)) by apply w_char_reachable.
  assert (H2 : 0 ≤ 8 ≤ ChunkSize (snd w_char)) by (split; vm_compute; discriminate).
  from_hyps.
  destruct (X6_Allocate_in_bounds 8 8 _ _ H1 H2)
    as (b & o & h' & s' & HA & Hb & _ & Ho & Hfit & _).
  exists b, o, h', s'. from_hyps; assumption.
Defined.

Lemma X7_witness :
  reachable (fst w_char, snd w_char) ∧
  0 ≤ sizeof T_int32 ≤ ChunkSize (snd w_char) ∧
  Chunks (snd w_char) ≠ [] ∧
  ∃ h' s',
    Push T_int32 (filled x0a) (fst w_char, snd w_char) = Some (tt, (h', s')) ∧
    Chunks s' = Chunks (snd w_char) ∧ live h' = live (fst w_char).
Proof.
  assert (H1 : reachable (fst w_char, snd w_char)) by apply w_char_reachable.
  assert (H2 : 0 ≤ sizeof T_int32 ≤ ChunkSize (snd w_char))
    by (split; vm_compute; discriminate).
  assert (H3 : Chunks (snd w_char) ≠ []) by (vm_compute; discriminate).
  assert (H4 : u64 (Details.Align u32 (Head (snd w_char)) (alignof T_int32)
                    + sizeof T_int32) ≤ ChunkSize (snd w_char) ∨
               ChunkHead (snd w_char) + 1 < Z.of_nat (length (Chunks (snd w_char))))
    by (left; vm_compute; discriminate).
  from_hyps.
  destruct (X7_Push_reuses_blocks T_int32 (filled x0a) _ _ H1 H2 H3 H4)
    as (h' & s' & HP & Hc & Hl & _).
  exists h', s'. from_hyps; assumption.
Defined.

Lemma X8_witness :
  reachable (fst w_two_blocks, snd w_two_blocks) ∧
  ∃ w', Clear 1 (fst w_two_blocks, snd w_two_blocks) = Some (tt, w') ∧
        Clear 1 w' = Some (tt, w').
Proof.
  assert (H1 : reachable (fst w_two_blocks, snd w_two_blocks))
    by apply w_two_blocks_reachable'.
  split; [assumption|].
  destruct (X8_Clear_is_idempotent 1 _ _ H1) as (w' & HC & HC' & _).
  exists w'. split; assumption.
Defined.

Lemma X9_witness :
  1 ≤ ChunkHead (snd w_two_blocks) < 2 ^ 32 - 1 ∧
  Push T_int64 (filled x09) (empty_heap, snd (MoveConstruct (snd w_two_blocks))) = None.
Proof.
  assert (H1 : 1 ≤ ChunkHead (snd w_two_blocks) < 2 ^ 32 - 1)
    by (split; vm_compute; (reflexivity || discriminate)).
  split; [assumption|].
  exact (X9_moved_from_push_is_undefined T_int64 (filled x09) empty_heap _ H1).
Defined.

Lemma X10_witness :
  reachable (fst w_two_blocks, snd w_two_blocks) ∧
  ∃ h' s',
    Clear 2 (fst w_two_blocks, snd (MoveConstruct (snd w_two_blocks)))
      = Some (tt, (h', s')) ∧
    length (Chunks s') = 2%nat ∧ Head s' = 0 ∧ ChunkHead s' = 0.
Proof.
  assert (H1 : reachable (fst w_two_blocks, snd w_two_blocks))
    by apply w_two_blocks_reachable'.
  split; [assumption|].
  destruct (X10_Clear_repairs_moved_from 2 _ _ H1)
    as (h' & s' & HC & _ & Hlen & Hh & Hc & _).
  exists h', s'. from_hyps; assumption.
Defined.

Lemma X11_witness :
  reachable (fst w_two_blocks, snd w_two_blocks) ∧
  ∃ h',
    Destroy (fst w_two_blocks, fst (MoveConstruct (snd w_two_blocks)))
      = Some (tt, (h', Construct (ChunkSize (snd w_two_blocks)))) ∧
    mem h' = mem (fst w_two_blocks).
Proof.
  assert (H1 : reachable (fst w_two_blocks, snd w_two_blocks))
    by apply w_two_blocks_reachable'.
  split; [assumption|].
  destruct (X11_destructors_after_move _ _ H1) as (_ & h' & HD & _ & Hm).
  exists h'. split; assumption.
Defined.

Lemma X12_witness :
  heap_wf empty_heap ∧ 0 ≤ 64 < 2 ^ 32 ∧ Forall (Op_fits 64) sample_life ∧
  ∃ h s h',
    run_ops sample_life (empty_heap, Construct 64) = Some (tt, (h, s)) ∧
    Destroy (h, s) = Some (tt, (h', Construct 64)) ∧
    live h' = live empty_heap.
Proof.
  assert (H1 : heap_wf empty_heap) by apply empty_heap_wf.
  assert (H2 : 0 ≤ 64 < 2 ^ 32) by lia.
  assert (H3 : Forall (Op_fits 64) sample_life).
  { repeat constructor; vm_compute; discriminate. }
  from_hyps.
  destruct (X12_lifetime_returns_all_memory empty_heap H1 64 sample_life H2 H3)
    as (h & s & h' & Hrun & _ & _ & HD & Hl & _).
  exists h, s, h'. from_hyps; assumption.
Defined.

Lemma X13_witness :
  reachable (fst w_char, snd w_char) ∧
  Push T_int32 (filled x0a) (fst w_char, snd w_char)
    = Some (tt, (fst (run_from w_char (Push T_int32 (filled x0a))),
                 snd (run_from w_char (Push T_int32 (filled x0a))))) ∧
  ∀ b' n, live (fst w_char) !! b' = Some n →
          live (fst (run_from w_char (Push T_int32 (filled x0a)))) !! b' = Some n.
Proof.
  assert (H1 : reachable (fst w_char, snd w_char)) by apply w_char_reachable.
  assert (H2 : Push T_int32 (filled x0a) (fst w_char, snd w_char)
    = Some (tt, (fst (run_from w_char (Push T_int32 (filled x0a))),
                 snd (run_from w_char (Push T_int32 (filled x0a))))))
    by (vm_compute; reflexivity).
  from_hyps.
  destruct (X13_Push_writes_only_its_bytes T_int32 (filled x0a) _ _ _ _ H1 H2)
    as (b & o & _ & _ & Hl & _).
  exact Hl.
Defined.

Lemma X14_witness :
  reachable (fst w_char, snd w_char) ∧
  in_used (snd w_char) (Ptr 0%nat 0) (sizeof T_char) ∧
  holds_value (fst w_char) T_char (Ptr 0%nat 0) (filled x07) ∧
  holds_value (fst (run_from w_char (Push T_int32 (filled x0a))))
              T_char (Ptr 0%nat 0) (filled x07).
Proof.
  assert (H1 : reachable (fst w_char, snd w_char)) by apply w_char_reachable.
  assert (H2 : ChunkSize (snd w_char) ≤ 2 ^ 32 - 64) by (vm_compute; discriminate).
  assert (H3 : ChunkHead (snd w_char) + 1 < 2 ^ 32) by (vm_compute; reflexivity).
  assert (H4 : CType_ok T_int32) by apply T_int32_ok.
  assert (H5 : alignof T_int32 ≤ 64) by (vm_compute; discriminate).
  assert (H6 : sizeof T_int32 ≤ ChunkSize (snd w_char)) by (vm_compute; discriminate).
  assert (H7 : Push T_int32 (filled x0a) (fst w_char, snd w_char)
               = Some (tt, run_from w_char (Push T_int32 (filled x0a))))
    by (vm_compute; reflexivity).
  assert (H8 : in_used (snd w_char) (Ptr 0%nat 0) (sizeof T_char)).
  { exists 0%nat, 0%nat, 0.
    split; [reflexivity|]. split; [vm_compute; reflexivity|].
    split; [lia|]. split; [vm_compute; discriminate|].
    right. split; vm_compute; (reflexivity || discriminate). }
  assert (H9 : holds_value (fst w_char) T_char (Ptr 0%nat 0) (filled x07)).
  { exists (λ i, mem (fst w_char) 0%nat (0 + i)). split; [vm_compute; reflexivity|].
    intros i Hi. assert (i = 0) as -> by (unfold T_char in Hi; simpl in Hi; lia).
    vm_compute. reflexivity. }
  from_hyps.
  exact (proj2 (X14_Push_preserves_stored_values T_int32 T_char (filled x0a)
                  (filled x07) (Ptr 0%nat 0) _ _ _ H1 H2 H3 H4 H5 H6 H7 H8 H9)).
Defined.

Lemma X15_witness :
  reachable (fst w_char, snd w_char) ∧
  is_alignment 8 ∧ 8 ≤ 64 ∧ 0 ≤ 8 ≤ ChunkSize (snd w_char) ∧
  ChunkSize (snd w_char) ≤ 2 ^ 32 - 64 ∧ ChunkHead (snd w_char) + 1 < 2 ^ 32 ∧
  Allocate 8 8 (fst w_char, snd w_char) = Allocate_spec 8 8 (fst w_char, snd w_char).
Proof.
  assert (H1 : reachable (fst w_char, snd w_char)) by apply w_char_reachable.
  assert (H2 : is_alignment 8) by (exists 3; split; [lia|reflexivity]).
  assert (H3 : 8 ≤ 64) by lia.
  assert (H4 : 0 ≤ 8 ≤ ChunkSize (snd w_char)) by (split; vm_compute; discriminate).
  assert (H5 : ChunkSize (snd w_char) ≤ 2 ^ 32 - 64) by (vm_compute; discriminate).
  assert (H6 : ChunkHead (snd w_char) + 1 < 2 ^ 32) by (vm_compute; reflexivity).
  from_hyps.
  exact (X15_Allocate_matches_unbounded 8 8 _ _ H1 H2 H3 H4 H5 H6).
Defined.

Lemma X16_witness :
  fresh_frame w_prewarmed ∧
  Forall (λ op, 0 ≤ sizeof (fst op) ≤ ChunkSize (snd w_prewarmed)) sample_frame ∧
  (length sample_frame ≤ length (Chunks (snd w_prewarmed)))%nat ∧
  ∃ w', PushAll sample_frame w_prewarmed = Some (tt, w') ∧
        Chunks (snd w') = Chunks (snd w_prewarmed) ∧
        live (fst w') = live (fst w_prewarmed).
Proof.
  assert (H1 : fresh_frame w_prewarmed) by apply fresh_w_prewarmed.
  assert (H2 : Forall (λ op, 0 ≤ sizeof (fst op) ≤ ChunkSize (snd w_prewarmed))
                      sample_frame).
  { repeat constructor; vm_compute; discriminate. }
  assert (H3 : (length sample_frame ≤ length (Chunks (snd w_prewarmed)))%nat)
    by (vm_compute; lia).
  from_hyps.
  destruct (X16_presized_frame_acquires_nothing sample_frame _ H1 H2 H3)
    as (w' & HP & Hc & Hl & _).
  exists w'. from_hyps; assumption.
Defined.

Lemma X18_witness :
  reachable (fst w_char, snd w_char) ∧
  ∃ b o h' s',
    Allocate 8 8 (fst w_char, snd w_char) = Some (Ptr b o, (h', s')) ∧
    in_used s' (Ptr b o) 8.
Proof.
  assert (H1 : reachable (fst w_char, snd w_char)) by apply w_char_reachable.
  assert (H2 : is_alignment 8) by (exists 3; split; [lia|reflexivity]).
  assert (H3 : 8 ≤ 64) by lia.
  assert (H4 : 0 ≤ 8 ≤ ChunkSize (snd w_char)) by (split; vm_compute; discriminate).
  assert (H5 : ChunkSize (snd w_char) ≤ 2 ^ 32 - 64) by (vm_compute; discriminate).
  assert (H6 : ChunkHead (snd w_char) + 1 < 2 ^ 32) by (vm_compute; reflexivity).
  split; [assumption|].
  destruct (X18_Allocate_skips_used_part 8 8 _ _ H1 H2 H3 H4 H5 H6)
    as (b & o & h' & s' & HA & Hin & _).
  exists b, o, h', s'. split; assumption.
Defined.

Lemma X19_witness :
  fresh_frame w_new64 ∧
  ∃ w' (log : Log),
    PushAll sample_frame w_new64 = Some (tt, w') ∧ map fst log = sample_frame ∧
    registry_of log (TypeMap (snd w')) ∧ log_disjoint log.
Proof.
  assert (H1 : fresh_frame w_new64) by apply fresh_w_new64.
  assert (H2 : Forall (λ op, CType_ok (fst op) ∧ alignof (fst op) ≤ 64 ∧
                sizeof (fst op) ≤ ChunkSize (snd w_new64)) sample_frame).
  { repeat constructor; try apply T_int32_ok; try apply T_Blob64_ok;
      vm_compute; discriminate. }
  assert (H3 : ChunkSize (snd w_new64) ≤ 2 ^ 32 - 64) by (vm_compute; discriminate).
  assert (H4 : Z.of_nat (length sample_frame) < 2 ^ 32) by (vm_compute; reflexivity).
  split; [assumption|].
  destruct (X19_frame_values_do_not_overlap sample_frame w_new64 H1 H2 H3 H4)
    as (w' & log & HP & Hmap & Hreg & _ & Hd).
  exists w', log. from_hyps; assumption.
Defined.

Lemma X20_witness :
  reachable (fst w_char, snd w_char) ∧ 0 ≤ sizeof T_Big ∧
  ((∃ w', Push T_Big (filled x01) (fst w_char, snd w_char) = Some (tt, w')) ↔
   sizeof T_Big ≤ ChunkSize (snd w_char)).
Proof.
  assert (H1 : reachable (fst w_char, snd w_char)) by apply w_char_reachable.
  assert (H2 : 0 ≤ sizeof T_Big) by (vm_compute; discriminate).
  from_hyps.
  exact (X20_Push_defined_iff_fits T_Big (filled x01) _ _ H1 H2).
Defined.

End FurtherWitnesses.
